(** * Marshaling of resource properties across the provider RPC boundary

    A shallow embedding of [pkg/resource/plugin/rpc.go] (package [plugin]) and
    of the Mufile parser ([parser.Parse], package [compiler]), together with
    the properties their specification states about them.

    Conventions of the embedding:
    - a Go [map[string]T] is a [gmap string T];
    - a [float64] is a primitive binary64 float, copied and never computed on;
    - [contract.Assert], [contract.Assertf] and [contract.Failf] abort the
      operation: a function that may hit one returns a [result], whose
      [Panic] case records which assertion fired;
    - [glog] logging has no effect on any returned value and is left out. *)

From stdpp Require Import gmap strings list fin_maps sorting.
From Stdlib Require Import Floats.PrimFloat.

#[local] Set Warnings "-register-all,-clear-no-such-hyp".

(** ** Package [contract]: fatal assertions *)

Module contract.

(** The assertion sites of rpc.go, one constructor per site (the two
    placeholder branches of [MarshalPropertyValue] share theirs). *)
Inductive panic : Set :=
| UnexpectedUnknowns        (* rpc.go:62   Assertf(unks == nil, ...) *)
| ElementIsComputed         (* rpc.go:107, 113   Assert(!e.IsComputed()) *)
| ElementNotKnown           (* rpc.go:109, 115   Assert(known) *)
| UnrecognizedProperty      (* rpc.go:119  Failf("Unrecognized property value") *)
| DecodedComputed           (* rpc.go:141  Assert(!v.IsComputed()) *)
| NilValue                  (* rpc.go:154  Assert(v != nil) *)
| ElemsTooShort             (* rpc.go:173  Assert(len(elems) > i) *)
| UnrecognizedKind.         (* rpc.go:192  Failf("Unrecognized structpb value kind") *)

Inductive result (A : Type) : Type :=
| Ok (a : A)
| Panic (p : panic).
Arguments Ok {A} a.
Arguments Panic {A} p.

Definition result_bind {A B : Type} (k : A → result B) (r : result A) : result B :=
  match r with
  | Ok a => k a
  | Panic p => Panic p
  end.

#[export] Instance result_mbind : MBind result := @result_bind.
#[export] Instance result_mret : MRet result := @Ok.

(** [Assert cond site] continues when [cond] holds and aborts at [site]
    otherwise. *)
Definition Assert (cond : bool) (site : panic) : result unit :=
  if cond then Ok tt else Panic site.

Definition is_Ok {A : Type} (r : result A) : Prop := ∃ a, r = Ok a.
Definition is_Panic {A : Type} (r : result A) : Prop := ∃ p, r = Panic p.

End contract.
Import contract.

(** ** Package [structpb]: the wire document *)

Module structpb.

(** A [Value] stands for a [*structpb.Value]: the pointer may be nil
    ([Value_nil]), its [Kind] may be unset ([Value_Kind_nil]), or the kind is
    one of the six wire kinds.  A nil [*ListValue] reads as an empty list
    ([GetValues] returns nil), so the list kind carries its values directly;
    the struct kind keeps the [*Struct] pointer, which [UnmarshalProperties]
    tests, as an option, and the fields of a struct as the map [Fields].
    A kind that is set holds its wrapper: a [Kind] that holds a nil wrapper
    pointer, which decoding a message never builds, has no case here. *)
Inductive Value : Type :=
| Value_nil
| Value_Kind_nil
| Value_NullValue
| Value_BoolValue (BoolValue : bool)
| Value_NumberValue (NumberValue : float)
| Value_StringValue (StringValue : string)
| Value_ListValue (Values : list Value)
| Value_StructValue (StructValue : option (gmap string Value)).

#[export] Instance Value_inhabited : Inhabited Value := populate Value_nil.

Fixpoint Value_size (v : Value) : nat :=
  match v with
  | Value_ListValue vs => S (foldr (λ x acc, Value_size x + acc) 0 vs)
  | Value_StructValue (Some fields) =>
      S (map_fold (λ _ x acc, Value_size x + acc) 0 fields)
  | _ => 1
  end.

(** The closed wire-kind set: no nil pointer and no unset kind, at any depth. *)
Fixpoint Value_closed (v : Value) : bool :=
  match v with
  | Value_nil | Value_Kind_nil => false
  | Value_ListValue vs => forallb Value_closed vs
  | Value_StructValue (Some fields) =>
      map_fold (λ _ x acc, Value_closed x && acc) true fields
  | _ => true
  end.

End structpb.
Import structpb.

Abbreviation Struct := (gmap string Value).

(** ** Sorted keys *)

(** Go compares strings byte by byte, which is the order of [String.leb]. *)
Definition string_le (a b : string) : Prop := String.leb a b = true.

#[export] Instance string_le_dec (a b : string) : Decision (string_le a b).
Proof. unfold string_le. apply _. Defined.

(** [sort.Strings]. *)
Definition sort_Strings (keys : list string) : list string :=
  merge_sort string_le keys.

(** Modelled from the spec: [PropertyMap.StableKeys] (package [resource], not
    part of the sources at hand) returns the keys of a property map in
    sorted, lexicographic order.  The same function stands for the keys
    that rpc.go:128-134 collects from a wire struct and sorts. *)
Definition StableKeys {V : Type} (m : gmap string V) : list string :=
  sort_Strings (map_to_list m).*1.

(** ** Generic facts on folds over maps, used for nested recursion *)

Lemma map_fold_sum_ge {V : Type} (f : V → nat) (m : gmap string V) k v :
  m !! k = Some v → f v ≤ map_fold (λ _ x acc, f x + acc) 0 m.
Proof.
  intros Hk.
  rewrite (map_fold_delete_L _ _ k v m); [lia | | done].
  intros; lia.
Qed.

Lemma foldr_sum_ge {V : Type} (f : V → nat) (l : list V) v :
  v ∈ l → f v ≤ foldr (λ x acc, f x + acc) 0 l.
Proof.
  induction 1 as [|? ? ? _ IH]; simpl; lia.
Qed.

Lemma map_fold_andb {V : Type} (f : V → bool) (m : gmap string V) :
  map_fold (λ _ x acc, f x && acc) true m = true ↔
  map_Forall (λ _ x, f x = true) m.
Proof.
  induction m as [|k v m Hk Hfold IH] using map_first_key_ind.
  - rewrite map_fold_empty. split; [intros _; apply map_Forall_empty | done].
  - rewrite map_fold_insert_first_key by done.
    rewrite andb_true_iff, IH, map_Forall_insert by done. tauto.
Qed.

Lemma forallb_Forall {V : Type} (f : V → bool) (l : list V) :
  forallb f l = true ↔ Forall (λ x, f x = true) l.
Proof.
  induction l as [|x l IH]; simpl.
  - split; [constructor | done].
  - rewrite andb_true_iff, IH, Forall_cons. tauto.
Qed.

Lemma StableKeys_perm {V : Type} (m : gmap string V) :
  StableKeys m ≡ₚ (map_to_list m).*1.
Proof. apply merge_sort_Permutation. Qed.

Lemma elem_of_StableKeys {V : Type} (m : gmap string V) k :
  k ∈ StableKeys m ↔ is_Some (m !! k).
Proof.
  rewrite StableKeys_perm, list_elem_of_fmap. split.
  - intros [[k' v] [-> Hin]]. apply elem_of_map_to_list in Hin. eauto.
  - intros [v Hv]. exists (k, v). split; [done|]. by apply elem_of_map_to_list.
Qed.

Lemma NoDup_StableKeys {V : Type} (m : gmap string V) : NoDup (StableKeys m).
Proof. rewrite StableKeys_perm. apply NoDup_fst_map_to_list. Qed.

#[export] Instance string_le_total : Total string_le.
Proof. intros a b. apply String.leb_total. Qed.

Lemma StableKeys_sorted {V : Type} (m : gmap string V) :
  Sorted string_le (StableKeys m).
Proof. apply (Sorted_merge_sort string_le). Qed.

(** Structural induction on wire values, through lists and structs. *)
Lemma Value_induction (P : Value → Prop) :
  P Value_nil → P Value_Kind_nil → P Value_NullValue →
  (∀ b, P (Value_BoolValue b)) →
  (∀ f, P (Value_NumberValue f)) →
  (∀ s, P (Value_StringValue s)) →
  (∀ vs, Forall P vs → P (Value_ListValue vs)) →
  P (Value_StructValue None) →
  (∀ fields, map_Forall (λ _ x, P x) fields →
             P (Value_StructValue (Some fields))) →
  ∀ v, P v.
Proof.
  intros Hnil Hkind Hnull Hbool Hnum Hstr Hlist Hnone Hstruct v.
  remember (Value_size v) as n eqn:Hn. revert v Hn.
  induction (lt_wf n) as [n _ IH]. intros v ->.
  destruct v as [| | | | | |vs|[fields|]]; auto.
  - apply Hlist, Forall_forall. intros x Hx.
    eapply IH; [|reflexivity]. simpl.
    pose proof (foldr_sum_ge Value_size vs x Hx). lia.
  - apply Hstruct. intros k x Hk.
    eapply IH; [|reflexivity]. simpl.
    pose proof (map_fold_sum_ge Value_size fields k x Hk). lia.
Qed.

(** ** Package [resource]: the typed property model *)

(** Modelled from the spec: the generic mapping that [Serialize] produces for
    an asset or archive (a Go [map[string]interface{}]; package [resource] is
    not part of the sources at hand).  It is a JSON-like tree: it holds no
    asset, archive, computed or output value. *)
Inductive plain : Type :=
| plain_nil
| plain_bool (b : bool)
| plain_float64 (f : float)
| plain_string (s : string)
| plain_slice (l : list plain)
| plain_map (m : gmap string plain).

Fixpoint plain_size (p : plain) : nat :=
  match p with
  | plain_slice l => S (foldr (λ x acc, plain_size x + acc) 0 l)
  | plain_map m => S (map_fold (λ _ x acc, plain_size x + acc) 0 m)
  | _ => 1
  end.

Lemma plain_induction (P : plain → Prop) :
  P plain_nil →
  (∀ b, P (plain_bool b)) →
  (∀ f, P (plain_float64 f)) →
  (∀ s, P (plain_string s)) →
  (∀ l, Forall P l → P (plain_slice l)) →
  (∀ m, map_Forall (λ _ x, P x) m → P (plain_map m)) →
  ∀ p, P p.
Proof.
  intros Hnil Hbool Hnum Hstr Hslice Hmap p.
  remember (plain_size p) as n eqn:Hn. revert p Hn.
  induction (lt_wf n) as [n _ IH]. intros p ->.
  destruct p as [| | | |l|m]; auto.
  - apply Hslice, Forall_forall. intros x Hx.
    eapply IH; [|reflexivity]. simpl.
    pose proof (foldr_sum_ge plain_size l x Hx). lia.
  - apply Hmap. intros k x Hk.
    eapply IH; [|reflexivity]. simpl.
    pose proof (map_fold_sum_ge plain_size m k x Hk). lia.
Qed.

(** [MarshalOptions] controls the marshaling of RPC structures. *)
Record MarshalOptions : Set := {
  SkipNulls : bool;     (* true to skip nulls altogether in the resulting map *)
  OldURNs : bool;       (* true to permit old URNs in the properties *)
  RawResources : bool;  (* true to marshal resources as they are *)
}.

(** The zero value [MarshalOptions{}]. *)
Definition default_options : MarshalOptions :=
  {| SkipNulls := false; OldURNs := false; RawResources := false |}.

(** [for _, key := range keys { ... }] over a state, leaving at the first
    abort. *)
Definition forKeys {S : Type} (body : string → S → result S) :
    list string → S → result S :=
  fix go keys st :=
    match keys with
    | [] => Ok st
    | key :: rest => st' ← body key st; go rest st'
    end.


(** ** The order of the keys *)

Lemma string_compare_refl (s : string) : String.compare s s = Eq.
Proof.
  induction s as [|c s IH]; simpl; [done|].
  unfold Ascii.compare. by rewrite N.compare_refl.
Qed.

Lemma string_compare_Lt_trans (s1 s2 s3 : string) :
  String.compare s1 s2 = Lt → String.compare s2 s3 = Lt →
  String.compare s1 s3 = Lt.
Proof.
  revert s2 s3. induction s1 as [|c1 s1 IH]; intros [|c2 s2] [|c3 s3];
    simpl; try done.
  destruct (Ascii.compare c1 c2) eqn:H12; [| |done];
    destruct (Ascii.compare c2 c3) eqn:H23; try done.
  - apply Ascii.compare_eq_iff in H12 as ->. rewrite H23. apply IH.
  - apply Ascii.compare_eq_iff in H12 as ->. by rewrite H23.
  - apply Ascii.compare_eq_iff in H23 as <-. by rewrite H12.
  - unfold Ascii.compare in *.
    apply N.compare_lt_iff in H12, H23.
    assert (N.compare (Ascii.N_of_ascii c1) (Ascii.N_of_ascii c3) = Lt) as ->;
      [|done].
    apply N.compare_lt_iff. by etrans.
Qed.

#[export] Instance string_le_trans : Transitive string_le.
Proof.
  intros s1 s2 s3. unfold string_le, String.leb.
  destruct (String.compare s1 s2) eqn:H12; [| |done];
    destruct (String.compare s2 s3) eqn:H23; try done; intros _ _.
  - apply String.compare_eq_iff in H12 as ->. by rewrite H23.
  - apply String.compare_eq_iff in H12 as ->. by rewrite H23.
  - apply String.compare_eq_iff in H23 as <-. by rewrite H12.
  - by rewrite (string_compare_Lt_trans s1 s2 s3).
Qed.

#[export] Instance string_le_antisymm : AntiSymm (=) string_le.
Proof. intros s1 s2. apply String.leb_antisym. Qed.

Lemma StableKeys_strongly_sorted {V : Type} (m : gmap string V) :
  StronglySorted string_le (StableKeys m).
Proof. apply (StronglySorted_merge_sort string_le). Qed.

(** In the sorted keys, a key that comes after [k] is not below [k]. *)
Lemma StableKeys_before {V : Type} (m : gmap string V) ks1 k ks2 k' :
  StableKeys m = ks1 ++ k :: ks2 →
  k' ∈ StableKeys m → string_le k' k → k' ≠ k → k' ∈ ks1.
Proof.
  intros Hks Hk' Hle Hne.
  pose proof (StableKeys_strongly_sorted m) as Hsorted.
  rewrite Hks in Hk', Hsorted.
  apply elem_of_app in Hk' as [?|Hk']; [done|].
  apply elem_of_cons in Hk' as [?|Hk']; [done|].
  apply StronglySorted_app_1_r, StronglySorted_cons in Hsorted as [Hall _].
  rewrite Forall_forall in Hall.
  destruct Hne. by apply (anti_symm string_le); [|apply Hall].
Qed.

Lemma forKeys_Panic_split {S : Type} (body : string → S → result S) keys st p :
  forKeys body keys st = Panic p →
  ∃ ks1 k ks2 st1, keys = ks1 ++ k :: ks2 ∧
                   forKeys body ks1 st = Ok st1 ∧ body k st1 = Panic p.
Proof.
  revert st. induction keys as [|k keys IH]; intros st; simpl; [done|].
  destruct (body k st) as [st'|q] eqn:Hk; simpl.
  - intros (ks1 & k' & ks2 & st1 & -> & H1 & H2)%IH.
    exists (k :: ks1), k', ks2, st1. split_and!; [done | | done].
    simpl. by rewrite Hk.
  - intros [= ->]. by exists [], k, keys, st.
Qed.
Section rpc.

(** The content-bearing special values are opaque to rpc.go. *)
Variables (Asset Archive : Type).

(** Modelled from the spec: [resource.PropertyValue], the closed tagged
    variant of section 3 (its declaration is not part of the sources at
    hand); the constructors carry the names of the Go constructors that
    rpc.go calls.  The zero value [PropertyValue{}] is the null property. *)
Inductive PropertyValue : Type :=
| NewNullProperty
| NewBoolProperty (v : bool)
| NewNumberProperty (v : float)
| NewStringProperty (v : string)
| NewArrayProperty (v : list PropertyValue)
| NewAssetProperty (v : Asset)
| NewArchiveProperty (v : Archive)
| NewObjectProperty (v : gmap string PropertyValue)
| NewComputedProperty (Element : PropertyValue)
| NewOutputProperty (Element : PropertyValue).

#[local] Abbreviation PropertyMap := (gmap string PropertyValue).

#[export] Instance PropertyValue_inhabited : Inhabited PropertyValue :=
  populate NewNullProperty.

Definition IsNull (v : PropertyValue) : bool :=
  match v with NewNullProperty => true | _ => false end.
Definition IsComputed (v : PropertyValue) : bool :=
  match v with NewComputedProperty _ => true | _ => false end.
Definition IsOutput (v : PropertyValue) : bool :=
  match v with NewOutputProperty _ => true | _ => false end.

Fixpoint PropertyValue_size (v : PropertyValue) : nat :=
  match v with
  | NewArrayProperty l => S (foldr (λ x acc, PropertyValue_size x + acc) 0 l)
  | NewObjectProperty m =>
      S (map_fold (λ _ x acc, PropertyValue_size x + acc) 0 m)
  | NewComputedProperty e | NewOutputProperty e => S (PropertyValue_size e)
  | _ => 1
  end.

(** A value none of whose parts, at any depth, is computed or output. *)
Fixpoint fully_known (v : PropertyValue) : bool :=
  match v with
  | NewArrayProperty l => forallb fully_known l
  | NewObjectProperty m => map_fold (λ _ x acc, fully_known x && acc) true m
  | NewComputedProperty _ | NewOutputProperty _ => false
  | _ => true
  end.

(** A value built only from null, bool, number, string, array and object. *)
Fixpoint only_plain (v : PropertyValue) : bool :=
  match v with
  | NewArrayProperty l => forallb only_plain l
  | NewObjectProperty m => map_fold (λ _ x acc, only_plain x && acc) true m
  | NewNullProperty | NewBoolProperty _ | NewNumberProperty _
  | NewStringProperty _ => true
  | _ => false
  end.

(** Modelled from the spec: [resource.NewPropertyValue] on a generic tree,
    and [resource.NewPropertyMapFromMap] on a generic mapping. *)
Fixpoint NewPropertyValue (p : plain) : PropertyValue :=
  match p with
  | plain_nil => NewNullProperty
  | plain_bool b => NewBoolProperty b
  | plain_float64 f => NewNumberProperty f
  | plain_string s => NewStringProperty s
  | plain_slice l => NewArrayProperty (NewPropertyValue <$> l)
  | plain_map m => NewObjectProperty (NewPropertyValue <$> m)
  end.

Definition NewPropertyMapFromMap (m : gmap string plain) : PropertyMap :=
  NewPropertyValue <$> m.

Lemma PropertyValue_induction (P : PropertyValue → Prop) :
  P NewNullProperty →
  (∀ b, P (NewBoolProperty b)) →
  (∀ f, P (NewNumberProperty f)) →
  (∀ s, P (NewStringProperty s)) →
  (∀ l, Forall P l → P (NewArrayProperty l)) →
  (∀ a, P (NewAssetProperty a)) →
  (∀ a, P (NewArchiveProperty a)) →
  (∀ m, map_Forall (λ _ x, P x) m → P (NewObjectProperty m)) →
  (∀ e, P e → P (NewComputedProperty e)) →
  (∀ e, P e → P (NewOutputProperty e)) →
  ∀ v, P v.
Proof.
  intros Hnull Hbool Hnum Hstr Harr Hasset Harch Hobj Hcomp Hout v.
  remember (PropertyValue_size v) as n eqn:Hn. revert v Hn.
  induction (lt_wf n) as [n _ IH]. intros v ->.
  destruct v as [| | | |l| | |m|e|e]; auto.
  - apply Harr, Forall_forall. intros x Hx.
    eapply IH; [|reflexivity]. simpl.
    pose proof (foldr_sum_ge PropertyValue_size l x Hx). lia.
  - apply Hobj. intros k x Hk.
    eapply IH; [|reflexivity]. simpl.
    pose proof (map_fold_sum_ge PropertyValue_size m k x Hk). lia.
  - apply Hcomp. eapply IH; [|reflexivity]. simpl. lia.
  - apply Hout. eapply IH; [|reflexivity]. simpl. lia.
Qed.

(** ** Package [plugin]: rpc.go *)

(** The collaborators of package [resource] that rpc.go calls and that are
    not part of the sources at hand: the codec of assets and archives.
    [Serialize] yields the generic mapping of a value; the recognizers
    [DeserializeAsset] and [DeserializeArchive] are taken on the decoded
    property map, that is, together with the plain view [obj.Mappable()]
    they are applied to, and answer [None] for "not a match". *)
Variable Asset_Serialize : Asset → gmap string plain.
Variable Archive_Serialize : Archive → gmap string plain.
Variable DeserializeAsset : PropertyMap → option Asset.
Variable DeserializeArchive : PropertyMap → option Archive.

(** [MarshalNull] marshals a nil to its protobuf form. *)
Definition MarshalNull (opts : MarshalOptions) : Value := Value_NullValue.

(** [MarshalString] marshals a string to its protobuf form. *)
Definition MarshalString (s : string) (opts : MarshalOptions) : Value :=
  Value_StringValue s.

(** [MarshalStruct] marshals a struct for use in a protobuf field where a
    value is expected. *)
Definition MarshalStruct (obj : Struct) (opts : MarshalOptions) : Value :=
  Value_StructValue (Some obj).

(** The side map [unk] of unknown keys: a [map[string]bool] that is nil
    ([None]) until the first unknown property is noted (rpc.go:48-53). *)
Definition note_unknown (unk : option (gset string)) (key : string) :
    option (gset string) :=
  match unk with
  | None => Some {[key]}
  | Some keys => Some ({[key]} ∪ keys)
  end.

(** The body of the loop of [MarshalPropertiesWithUnknowns] (rpc.go:34-53);
    [marshal key] stands for [MarshalPropertyValue(props[key], opts)]. *)
Definition marshalProperty (opts : MarshalOptions) (props : PropertyMap)
    (marshal : string → result (Value * bool)) (key : string)
    (st : Struct * option (gset string)) :
    result (Struct * option (gset string)) :=
  let v := props !!! key in
  if IsOutput v then Ok st                        (* skip output properties *)
  else if SkipNulls opts && IsNull v then Ok st   (* skip nulls if requested *)
  else
    '(mv, known) ← marshal key;
    let unk : option (gset string) :=
      if known : bool then st.2 else note_unknown st.2 key in
    Ok (<[key := mv]> st.1, unk).

Definition MarshalPropertiesWith (props : PropertyMap) (opts : MarshalOptions)
    (marshal : string → result (Value * bool)) :
    result (Struct * option (gset string)) :=
  forKeys (marshalProperty opts props marshal) (StableKeys props) (∅, None).

(** The loop of the array branch (rpc.go:86-92). *)
Definition marshalElems (marshal : PropertyValue → result (Value * bool)) :
    list PropertyValue → bool → list Value → result (list Value * bool) :=
  fix go vs outcome elems :=
    match vs with
    | [] => Ok (elems, outcome)
    | elem :: rest =>
        '(elemv, known) ← marshal elem;
        go rest (outcome && known) (elems ++ [elemv])
    end.

Definition unks_nil (unks : option (gset string)) : bool :=
  match unks with None => true | Some _ => false end.

(** [MarshalPropertyValue], with the asset and archive branches left open
    (see [MarshalPropertyValue] below).  The chain of [Is...] tests of the
    source is the match on the closed variant, which leaves the final
    [contract.Failf] of rpc.go:119 without a case.  In the object branch the
    values of the map are marshaled through [<$>] and looked up by key, so
    that the recursion is structural; [MarshalPropertyValue_object] gives the
    branch as the source writes it. *)
Fixpoint MarshalPropertyValueWith
    (asset : Asset → MarshalOptions → result (Value * bool))
    (archive : Archive → MarshalOptions → result (Value * bool))
    (v : PropertyValue) (opts : MarshalOptions) {struct v} :
    result (Value * bool) :=
  match v with
  | NewNullProperty => Ok (MarshalNull opts, true)
  | NewBoolProperty b => Ok (Value_BoolValue b, true)
  | NewNumberProperty n => Ok (Value_NumberValue n, true)
  | NewStringProperty s => Ok (MarshalString s opts, true)
  | NewArrayProperty vs =>
      '(elems, outcome) ←
        marshalElems (λ elem, MarshalPropertyValueWith asset archive elem opts)
                     vs true [];
      Ok (Value_ListValue elems, outcome)
  | NewAssetProperty a => asset a opts
  | NewArchiveProperty a => archive a opts
  | NewObjectProperty m =>
      let marshaled :=
        (λ x, MarshalPropertyValueWith asset archive x opts) <$> m in
      '(obj, unks) ←
        MarshalPropertiesWith m opts
          (λ key, default (Ok (MarshalNull opts, true)) (marshaled !! key));
      Ok (MarshalStruct obj opts, unks_nil unks)
  | NewComputedProperty e =>
      _ ← Assert (negb (IsComputed e)) ElementIsComputed;
      '(w, known) ← MarshalPropertyValueWith asset archive e opts;
      _ ← Assert known ElementNotKnown;
      Ok (w, false)
  | NewOutputProperty e =>
      _ ← Assert (negb (IsComputed e)) ElementIsComputed;
      '(w, known) ← MarshalPropertyValueWith asset archive e opts;
      _ ← Assert known ElementNotKnown;
      Ok (w, false)
  end.

(** Marshaling of a serialized asset or archive: the generic mapping that
    [Serialize] returns holds no asset and no archive, so that the two open
    branches are never entered there ([MarshalAsset_eq], [MarshalArchive_eq]
    show that this is [MarshalPropertyValue] on the serialized form). *)
Definition marshalSerialized (serap : PropertyMap) (opts : MarshalOptions) :
    result (Value * bool) :=
  MarshalPropertyValueWith
    (λ _ _, Panic UnrecognizedProperty) (λ _ _, Panic UnrecognizedProperty)
    (NewObjectProperty serap) opts.

(** [MarshalAsset] marshals an asset into its wire form for resource provider
    plugins: it first serializes the asset, and then marshals that. *)
Definition MarshalAsset (v : Asset) (opts : MarshalOptions) :
    result (Value * bool) :=
  let sera := Asset_Serialize v in
  let serap := NewPropertyMapFromMap sera in
  marshalSerialized serap opts.

(** [MarshalArchive] marshals an archive into its wire form for resource
    provider plugins. *)
Definition MarshalArchive (v : Archive) (opts : MarshalOptions) :
    result (Value * bool) :=
  let sera := Archive_Serialize v in
  let serap := NewPropertyMapFromMap sera in
  marshalSerialized serap opts.

(** [MarshalPropertyValue] marshals a single resource property value into its
    JSON-like value representation.  The boolean tells whether the value was
    known (true) or unknown (false). *)
Definition MarshalPropertyValue (v : PropertyValue) (opts : MarshalOptions) :
    result (Value * bool) :=
  MarshalPropertyValueWith MarshalAsset MarshalArchive v opts.

(** [MarshalPropertiesWithUnknowns] marshals a resource's property map as a
    JSON-like protobuf structure; the unknown properties met on the way are
    returned on the side. *)
Definition MarshalPropertiesWithUnknowns (props : PropertyMap)
    (opts : MarshalOptions) : result (Struct * option (gset string)) :=
  MarshalPropertiesWith props opts
    (λ key, MarshalPropertyValue (props !!! key) opts).

(** [MarshalProperties] performs ordinary marshaling of a resource's
    properties but then validates afterwards that all fields were known. *)
Definition MarshalProperties (props : PropertyMap) (opts : MarshalOptions) :
    result Struct :=
  '(pstr, unks) ← MarshalPropertiesWithUnknowns props opts;
  _ ← Assert (unks_nil unks) UnexpectedUnknowns;
  Ok pstr.

(** The loop of the list branch of [UnmarshalPropertyValue] (rpc.go:167-175):
    [i] is the index of the element at hand, [elems] the slice filled so
    far. *)
Definition unmarshalElems (unmarshal : Value → result PropertyValue) :
    list Value → nat → list PropertyValue → result (list PropertyValue) :=
  fix go values i elems :=
    match values with
    | [] => Ok elems
    | elem :: rest =>
        let elems :=
          if decide (i = length elems) then elems ++ [NewNullProperty]
          else elems in
        _ ← Assert (bool_decide (i < length elems)) ElemsTooShort;
        e ← unmarshal elem;
        go rest (S i) (<[i := e]> elems)
    end.

(** The body of the loop of [UnmarshalProperties] (rpc.go:138-146);
    [unmarshal key] stands for [UnmarshalPropertyValue(props.Fields[key],
    opts)]. *)
Definition unmarshalField (opts : MarshalOptions)
    (unmarshal : string → result PropertyValue) (key : string)
    (result : PropertyMap) : contract.result PropertyMap :=
  v ← unmarshal key;
  _ ← Assert (negb (IsComputed v)) DecodedComputed;
  if SkipNulls opts && IsNull v then Ok result
  else Ok (<[key := v]> result).

Definition UnmarshalPropertiesWith (props : option Struct)
    (opts : MarshalOptions) (unmarshal : string → result PropertyValue) :
    result PropertyMap :=
  let keys :=
    match props with
    | Some fields => StableKeys fields
    | None => []
    end in
  forKeys (unmarshalField opts unmarshal) keys ∅.

(** [UnmarshalPropertyValue] unmarshals a single JSON-like value into a new
    property value.  As in [MarshalPropertyValueWith], the fields of a struct
    are decoded through [<$>] and looked up by key;
    [UnmarshalPropertyValue_struct] gives the branch as the source writes
    it. *)
Fixpoint UnmarshalPropertyValue (v : Value) (opts : MarshalOptions) {struct v} :
    result PropertyValue :=
  match v with
  | Value_nil => Panic NilValue
  | Value_NullValue => Ok NewNullProperty
  | Value_BoolValue b => Ok (NewBoolProperty b)
  | Value_NumberValue n => Ok (NewNumberProperty n)
  | Value_StringValue s => Ok (NewStringProperty s)
  | Value_ListValue values =>
      elems ← unmarshalElems (λ elem, UnmarshalPropertyValue elem opts)
                             values 0 [];
      Ok (NewArrayProperty elems)
  | Value_StructValue s =>
      let decoded : gmap string (result PropertyValue) :=
        match s with
        | Some fields => (λ x, UnmarshalPropertyValue x opts) <$> fields
        | None => ∅
        end in
      obj ← UnmarshalPropertiesWith s opts
               (λ key, default (Panic NilValue) (decoded !! key));
      match DeserializeAsset obj with
      | Some asset => Ok (NewAssetProperty asset)
      | None =>
          match DeserializeArchive obj with
          | Some archive => Ok (NewArchiveProperty archive)
          | None => Ok (NewObjectProperty obj)
          end
      end
  | Value_Kind_nil => Panic UnrecognizedKind
  end.

(** [UnmarshalProperties] unmarshals a JSON-like protobuf structure into a
    new resource property map. *)
Definition UnmarshalProperties (props : option Struct) (opts : MarshalOptions) :
    result PropertyMap :=
  UnmarshalPropertiesWith props opts
    (λ key, UnmarshalPropertyValue (default ∅ props !!! key) opts).

(** ** The loops of rpc.go *)

Definition ok {A : Type} (r : result A) : option A :=
  match r with Ok a => Some a | Panic _ => None end.

Lemma bind_Ok_inv {A B : Type} (r : result A) (k : A → result B) b :
  r ≫= k = Ok b → ∃ a, r = Ok a ∧ k a = Ok b.
Proof.
  unfold mbind, result_mbind. destruct r as [a|p]; simpl; [eauto | done].
Qed.

Lemma bind_Panic_inv {A B : Type} (r : result A) (k : A → result B) p :
  r ≫= k = Panic p → r = Panic p ∨ ∃ a, r = Ok a ∧ k a = Panic p.
Proof.
  unfold mbind, result_mbind. destruct r as [a|q]; simpl; intros H; [right; by exists a | left; congruence].
Qed.

Lemma forKeys_ext {S : Type} (body1 body2 : string → S → result S) keys st :
  (∀ key st, key ∈ keys → body1 key st = body2 key st) →
  forKeys body1 keys st = forKeys body2 keys st.
Proof.
  revert st. induction keys as [|key keys IH]; intros st Hext; [done|].
  simpl. rewrite Hext by left.
  destruct (body2 key st) as [st'|p]; [|done].
  apply IH. intros ? ? ?. apply Hext. by right.
Qed.

Lemma bool_decide_cons_ne (k k0 : string) ks :
  k ≠ k0 → bool_decide (k ∈ k0 :: ks) = bool_decide (k ∈ ks).
Proof.
  intros Hne. apply bool_decide_ext. rewrite elem_of_cons. naive_solver.
Qed.

(** A key is left out of the wire struct when its value is an output, or a
    null under [SkipNulls] (rpc.go:36-42). *)
Definition skipped (opts : MarshalOptions) (v : PropertyValue) : bool :=
  IsOutput v || (SkipNulls opts && IsNull v).

Definition unk_keys (unk : option (gset string)) : gset string :=
  default ∅ unk.

Lemma marshalProperty_eq opts props marshal key st :
  marshalProperty opts props marshal key st =
  if skipped opts (props !!! key) then Ok st
  else '(mv, known) ← marshal key;
       Ok (<[key := mv]> st.1,
           if known : bool then st.2 else note_unknown st.2 key).
Proof.
  unfold marshalProperty, skipped.
  destruct (IsOutput _); [done|]. by destruct (SkipNulls opts && IsNull _).
Qed.

Lemma marshalProperty_ext opts props marshal1 marshal2 key st :
  marshal1 key = marshal2 key →
  marshalProperty opts props marshal1 key st =
  marshalProperty opts props marshal2 key st.
Proof. intros H. rewrite !marshalProperty_eq. by rewrite H. Qed.

Lemma note_unknown_keys unk key :
  unk_keys (note_unknown unk key) = {[key]} ∪ unk_keys unk.
Proof. destruct unk; simpl; set_solver. Qed.

Lemma note_unknown_Some unk key : note_unknown unk key ≠ None.
Proof. by destruct unk. Qed.

(** What the loop of [MarshalPropertiesWithUnknowns] computes over the keys
    [ks], from the state [st]: on success every key that is not skipped has
    marshaled, the fields of these keys hold the marshaled values, and the
    side map holds those that were not known; an abort is the abort of the
    marshaling of some key that is not skipped. *)
Lemma marshal_loop_spec opts props marshal ks st :
  match forKeys (marshalProperty opts props marshal) ks st with
  | Ok st' =>
      (∀ k, k ∈ ks → skipped opts (props !!! k) = false → is_Ok (marshal k)) ∧
      (∀ k, st'.1 !! k =
            if bool_decide (k ∈ ks) && negb (skipped opts (props !!! k))
            then fst <$> ok (marshal k) else st.1 !! k) ∧
      (∀ k, k ∈ unk_keys st'.2 ↔
            k ∈ unk_keys st.2 ∨
            (k ∈ ks ∧ skipped opts (props !!! k) = false ∧
             ∃ w, marshal k = Ok (w, false))) ∧
      (st'.2 = None ↔
       st.2 = None ∧
       ∀ k w b, k ∈ ks → skipped opts (props !!! k) = false →
                marshal k = Ok (w, b) → b = true)
  | Panic p =>
      ∃ k, k ∈ ks ∧ skipped opts (props !!! k) = false ∧ marshal k = Panic p
  end.
Proof.
  revert st. induction ks as [|k0 ks IH]; intros st.
  - simpl. split_and!.
    + intros k Hk. by apply elem_of_nil in Hk.
    + done.
    + intros k. split; [by left|]. intros [?|(Hk&_)]; [done|].
      by apply elem_of_nil in Hk.
    + split; [|by intros []]. intros H. split; [done|].
      intros k w b Hk. by apply elem_of_nil in Hk.
  - simpl. rewrite marshalProperty_eq.
    destruct (skipped opts (props !!! k0)) eqn:Hskip.
    + simpl. specialize (IH st).
      destruct (forKeys _ ks st) as [st'|p].
      * destruct IH as (Hok & Hfld & Hunk & Hnil). split_and!.
        -- intros k [->|Hk]%elem_of_cons Hs; [congruence | by apply Hok].
        -- intros k. rewrite Hfld.
           destruct (decide (k = k0)) as [->|Hne].
           ++ rewrite Hskip. simpl. by rewrite !andb_false_r.
           ++ by rewrite bool_decide_cons_ne.
        -- intros k. rewrite Hunk, elem_of_cons.
           split; [naive_solver|].
           intros [?|([->|?]&?&?)]; [by left | congruence | naive_solver].
        -- rewrite Hnil. split; intros [H1 H2]; (split; [done|]).
           ++ intros k w b [->|Hk]%elem_of_cons ? ?; [congruence | eauto].
           ++ intros k w b Hk. apply H2. by right.
      * destruct IH as (k & Hk & Hs & Hp). exists k. split; [by right | done].
    + destruct (marshal k0) as [[mv known]|p] eqn:Hm; simpl.
      2:{ exists k0. split; [by left | done]. }
      specialize (IH (<[k0:=mv]> st.1,
                      if known then st.2 else note_unknown st.2 k0)).
      destruct (forKeys _ ks _) as [st'|p].
      * destruct IH as (Hok & Hfld & Hunk & Hnil).
        simpl in Hok, Hfld, Hunk, Hnil |- *. split_and!.
        -- intros k [->|Hk]%elem_of_cons Hs; [rewrite Hm; by eexists | eauto].
        -- intros k. rewrite Hfld.
           destruct (decide (k = k0)) as [->|Hne].
           ++ rewrite Hskip, Hm, lookup_insert_eq. simpl.
              rewrite (bool_decide_eq_true_2 (k0 ∈ k0 :: ks)) by left.
              simpl. by destruct (bool_decide (k0 ∈ ks)).
           ++ rewrite lookup_insert_ne by done.
              by rewrite bool_decide_cons_ne.
        -- intros k. rewrite Hunk, elem_of_cons. destruct known.
           ++ split; [naive_solver|].
              intros [?|([->|?]&?&[w Hw])]; [by left | congruence | naive_solver].
           ++ rewrite note_unknown_keys, elem_of_union, elem_of_singleton.
              split; [|naive_solver].
              intros [[->|?]|?]; [right | by left | naive_solver].
              split_and!; [by left | done | by exists mv].
        -- rewrite Hnil. destruct known.
           ++ split; intros [H1 H2]; (split; [done|]).
              ** intros k w b [->|Hk]%elem_of_cons ? ?; [congruence | eauto].
              ** intros k w b Hk. apply H2. by right.
           ++ split.
              ** intros [H1 _]. by apply note_unknown_Some in H1.
              ** intros [_ H2]. specialize (H2 k0 mv false).
                 exfalso. cut (false = true); [done|].
                 apply H2; [by left | done | done].
      * destruct IH as (k & Hk & Hs & Hp). exists k. split; [by right | done].
Qed.

Lemma unmarshalField_Ok opts unmarshal key st st' :
  unmarshalField opts unmarshal key st = Ok st' →
  ∃ v, unmarshal key = Ok v ∧ IsComputed v = false ∧
       st' = if SkipNulls opts && IsNull v then st else <[key := v]> st.
Proof.
  unfold unmarshalField. intros (v & Hv & H)%bind_Ok_inv.
  exists v. split; [done|].
  destruct (IsComputed v); [done|]. simpl in H.
  split; [done|]. destruct (SkipNulls opts && IsNull v); congruence.
Qed.

Lemma unmarshalField_Panic opts unmarshal key st p :
  unmarshalField opts unmarshal key st = Panic p →
  unmarshal key = Panic p ∨
  ∃ v, unmarshal key = Ok v ∧ IsComputed v = true ∧ p = DecodedComputed.
Proof.
  unfold unmarshalField. intros [H|(v & Hv & H)]%bind_Panic_inv; [by left|].
  right. exists v. split; [done|].
  destruct (IsComputed v); simpl in H.
  - split; [done | congruence].
  - by destruct (SkipNulls opts && IsNull v).
Qed.

(** What the loop of [UnmarshalProperties] computes over the keys [ks], from
    the map [st]. *)
Lemma unmarshal_loop_spec opts unmarshal ks st :
  match forKeys (unmarshalField opts unmarshal) ks st with
  | Ok st' =>
      (∀ k, k ∈ ks → ∃ v, unmarshal k = Ok v ∧ IsComputed v = false) ∧
      (∀ k, st' !! k =
            if bool_decide (k ∈ ks)
            then match unmarshal k with
                 | Ok v => if SkipNulls opts && IsNull v then st !! k
                           else Some v
                 | Panic _ => None
                 end
            else st !! k)
  | Panic p =>
      ∃ k, k ∈ ks ∧
           (unmarshal k = Panic p ∨
            ∃ v, unmarshal k = Ok v ∧ IsComputed v = true ∧
                 p = DecodedComputed)
  end.
Proof.
  revert st. induction ks as [|k0 ks IH]; intros st.
  - simpl. split.
    + intros k Hk. by apply elem_of_nil in Hk.
    + done.
  - simpl. destruct (unmarshalField opts unmarshal k0 st) as [st1|p] eqn:Hf.
    + apply unmarshalField_Ok in Hf as (v & Hv & Hc & ->). simpl.
      specialize (IH (if SkipNulls opts && IsNull v then st else <[k0:=v]> st)).
      destruct (forKeys _ ks _) as [st'|p].
      * destruct IH as [Hok Hfld]. split.
        -- intros k [->|Hk]%elem_of_cons; eauto.
        -- intros k. rewrite Hfld.
           destruct (decide (k = k0)) as [->|Hne].
           ++ rewrite (bool_decide_eq_true_2 (k0 ∈ k0 :: ks)) by left.
              rewrite Hv.
              destruct (SkipNulls opts && IsNull v) eqn:Hs;
                destruct (bool_decide (k0 ∈ ks)); try done.
              by rewrite lookup_insert_eq.
           ++ rewrite bool_decide_cons_ne by done.
              assert ((if SkipNulls opts && IsNull v then st
                       else <[k0:=v]> st) !! k = st !! k) as ->; [|done].
              destruct (SkipNulls opts && IsNull v); [done|].
              by rewrite lookup_insert_ne.
      * destruct IH as (k & Hk & H). exists k. split; [by right | done].
    + simpl. exists k0. split; [by left|].
      by apply unmarshalField_Panic in Hf.
Qed.

(** The two element loops. *)
Lemma marshalElems_spec (marshal : PropertyValue → result (Value * bool)) vs :
  ∀ outcome elems,
  match marshalElems marshal vs outcome elems with
  | Ok (elems', outcome') =>
      ∃ wbs, Forall2 (λ v wb, marshal v = Ok wb) vs wbs ∧
             elems' = elems ++ wbs.*1 ∧
             outcome' = outcome && forallb id wbs.*2
  | Panic p => ∃ v, v ∈ vs ∧ marshal v = Panic p
  end.
Proof.
  induction vs as [|v vs IH]; intros outcome elems; simpl.
  - exists []. split_and!; [constructor | by rewrite app_nil_r |].
    by rewrite andb_true_r.
  - destruct (marshal v) as [[elemv known]|p] eqn:Hv; simpl.
    2:{ exists v. split; [by left | done]. }
    specialize (IH (outcome && known) (elems ++ [elemv])).
    destruct (marshalElems marshal vs _ _) as [[elems' outcome']|p].
    + destruct IH as (wbs & Hall & -> & ->).
      exists ((elemv, known) :: wbs). split_and!.
      * by constructor.
      * by rewrite <- app_assoc.
      * simpl. by rewrite andb_assoc.
    + destruct IH as (x & Hx & Hp). exists x. split; [by right | done].
Qed.

Lemma unmarshalElems_spec (unmarshal : Value → result PropertyValue) values :
  ∀ elems,
  match unmarshalElems unmarshal values (length elems) elems with
  | Ok elems' =>
      ∃ pvs, Forall2 (λ v pv, unmarshal v = Ok pv) values pvs ∧
             elems' = elems ++ pvs
  | Panic p => ∃ v, v ∈ values ∧ unmarshal v = Panic p
  end.
Proof.
  induction values as [|v values IH]; intros elems; simpl.
  - exists []. split; [constructor | by rewrite app_nil_r].
  - rewrite decide_True by done.
    rewrite bool_decide_eq_true_2 by (rewrite length_app; simpl; lia).
    simpl. destruct (unmarshal v) as [e|p] eqn:Hv; simpl.
    2:{ exists v. split; [by left | done]. }
    assert (<[length elems := e]> (elems ++ [NewNullProperty]) = elems ++ [e])
      as ->.
    { rewrite insert_app_r_alt by done. by rewrite Nat.sub_diag. }
    specialize (IH (elems ++ [e])).
    rewrite length_app in IH. simpl in IH.
    rewrite Nat.add_1_r in IH.
    destruct (unmarshalElems unmarshal values _ _) as [elems'|p].
    + destruct IH as (pvs & Hall & ->). exists (e :: pvs).
      split; [by constructor | by rewrite <- app_assoc].
    + destruct IH as (x & Hx & Hp). exists x. split; [by right | done].
Qed.

(** ** The recursive branches, as the source writes them *)

Lemma marshalElems_ext (f g : PropertyValue → result (Value * bool)) vs :
  Forall (λ v, f v = g v) vs →
  ∀ outcome elems, marshalElems f vs outcome elems = marshalElems g vs outcome elems.
Proof.
  induction 1 as [|v vs Hv _ IH]; intros outcome elems; simpl; [done|].
  rewrite Hv. destruct (g v) as [[elemv known]|p]; simpl; [apply IH | done].
Qed.

Lemma MarshalPropertiesWith_ext props opts marshal1 marshal2 :
  (∀ key, marshal1 key = marshal2 key) →
  MarshalPropertiesWith props opts marshal1 =
  MarshalPropertiesWith props opts marshal2.
Proof.
  intros Hext. apply forKeys_ext. intros key st _.
  apply marshalProperty_ext, Hext.
Qed.

Lemma MarshalPropertyValueWith_object asset archive m opts :
  MarshalPropertyValueWith asset archive (NewObjectProperty m) opts =
  '(obj, unks) ←
    MarshalPropertiesWith m opts
      (λ key, MarshalPropertyValueWith asset archive (m !!! key) opts);
  Ok (MarshalStruct obj opts, unks_nil unks).
Proof.
  simpl. f_equal. apply MarshalPropertiesWith_ext. intros key.
  rewrite lookup_fmap, lookup_total_alt. by destruct (m !! key).
Qed.

(** rpc.go:102-104. *)
Lemma MarshalPropertyValue_object m opts :
  MarshalPropertyValue (NewObjectProperty m) opts =
  '(obj, unks) ← MarshalPropertiesWithUnknowns m opts;
  Ok (MarshalStruct obj opts, unks_nil unks).
Proof. apply MarshalPropertyValueWith_object. Qed.

(** rpc.go:85-97. *)
Lemma MarshalPropertyValue_array vs opts :
  MarshalPropertyValue (NewArrayProperty vs) opts =
  '(elems, outcome) ←
    marshalElems (λ elem, MarshalPropertyValue elem opts) vs true [];
  Ok (Value_ListValue elems, outcome).
Proof. reflexivity. Qed.

(** rpc.go:105-110 and 111-116. *)
Lemma MarshalPropertyValue_computed e opts :
  MarshalPropertyValue (NewComputedProperty e) opts =
  _ ← Assert (negb (IsComputed e)) ElementIsComputed;
  '(w, known) ← MarshalPropertyValue e opts;
  _ ← Assert known ElementNotKnown;
  Ok (w, false).
Proof. reflexivity. Qed.

Lemma MarshalPropertyValue_output e opts :
  MarshalPropertyValue (NewOutputProperty e) opts =
  _ ← Assert (negb (IsComputed e)) ElementIsComputed;
  '(w, known) ← MarshalPropertyValue e opts;
  _ ← Assert known ElementNotKnown;
  Ok (w, false).
Proof. reflexivity. Qed.

(** rpc.go:178-189. *)
Lemma UnmarshalPropertyValue_struct s opts :
  UnmarshalPropertyValue (Value_StructValue s) opts =
  obj ← UnmarshalProperties s opts;
  match DeserializeAsset obj with
  | Some asset => Ok (NewAssetProperty asset)
  | None =>
      match DeserializeArchive obj with
      | Some archive => Ok (NewArchiveProperty archive)
      | None => Ok (NewObjectProperty obj)
      end
  end.
Proof.
  simpl. f_equal. apply forKeys_ext. intros key st _.
  unfold unmarshalField. f_equal.
  rewrite lookup_total_alt. destruct s as [fields|]; simpl.
  - rewrite lookup_fmap. by destruct (fields !! key).
  - by rewrite lookup_empty.
Qed.

(** rpc.go:165-177: the list branch decodes the elements in order. *)
Lemma UnmarshalPropertyValue_list values opts :
  match UnmarshalPropertyValue (Value_ListValue values) opts with
  | Ok pv =>
      ∃ pvs, Forall2 (λ v pv, UnmarshalPropertyValue v opts = Ok pv) values pvs ∧
             pv = NewArrayProperty pvs
  | Panic p => ∃ v, v ∈ values ∧ UnmarshalPropertyValue v opts = Panic p
  end.
Proof.
  simpl.
  pose proof (unmarshalElems_spec
                (λ elem, UnmarshalPropertyValue elem opts) values []) as H.
  simpl in H.
  destruct (unmarshalElems _ values 0 []) as [elems|p]; simpl; [|done].
  destruct H as (pvs & Hall & ->). by exists pvs.
Qed.

(** A serialized asset or archive holds plain values only, on which the
    asset and archive branches play no part. *)
Lemma MarshalPropertyValueWith_plain asset1 archive1 asset2 archive2 opts p :
  MarshalPropertyValueWith asset1 archive1 (NewPropertyValue p) opts =
  MarshalPropertyValueWith asset2 archive2 (NewPropertyValue p) opts.
Proof.
  induction p as [| | | |l IH|m IH] using plain_induction; try done.
  - simpl. f_equal. apply marshalElems_ext.
    apply Forall_fmap. eapply Forall_impl; [exact IH|]. by intros x Hx.
  - cbn [NewPropertyValue]. rewrite !MarshalPropertyValueWith_object.
    f_equal. apply MarshalPropertiesWith_ext. intros key.
    rewrite lookup_total_alt, lookup_fmap.
    destruct (m !! key) as [p|] eqn:Hp; simpl; [|done].
    by apply (IH key p).
Qed.

Lemma marshalSerialized_eq sera opts :
  marshalSerialized (NewPropertyMapFromMap sera) opts =
  MarshalPropertyValue (NewObjectProperty (NewPropertyMapFromMap sera)) opts.
Proof.
  apply (MarshalPropertyValueWith_plain _ _ _ _ opts (plain_map sera)).
Qed.

(** rpc.go:225-230. *)
Lemma MarshalAsset_eq v opts :
  MarshalAsset v opts =
  MarshalPropertyValue
    (NewObjectProperty (NewPropertyMapFromMap (Asset_Serialize v))) opts.
Proof. apply marshalSerialized_eq. Qed.

(** rpc.go:233-238. *)
Lemma MarshalArchive_eq v opts :
  MarshalArchive v opts =
  MarshalPropertyValue
    (NewObjectProperty (NewPropertyMapFromMap (Archive_Serialize v))) opts.
Proof. apply marshalSerialized_eq. Qed.

(** ** What the two map functions compute *)

Lemma MarshalPropertiesWith_spec (f : PropertyValue → result (Value * bool))
    props opts :
  match MarshalPropertiesWith props opts (λ key, f (props !!! key)) with
  | Ok (s, unk) =>
      (∀ k v, props !! k = Some v → skipped opts v = false → is_Ok (f v)) ∧
      (∀ k, s !! k =
            v ← props !! k;
            if skipped opts v then None else fst <$> ok (f v)) ∧
      (∀ k, k ∈ unk_keys unk ↔
            ∃ v w, props !! k = Some v ∧ skipped opts v = false ∧
                   f v = Ok (w, false)) ∧
      (unk = None ↔
       ∀ k v w b, props !! k = Some v → skipped opts v = false →
                  f v = Ok (w, b) → b = true)
  | Panic p =>
      ∃ k v, props !! k = Some v ∧ skipped opts v = false ∧ f v = Panic p
  end.
Proof.
  unfold MarshalPropertiesWith.
  pose proof (marshal_loop_spec opts props (λ key, f (props !!! key))
                (StableKeys props) (∅, None)) as H.
  destruct (forKeys _ _ _) as [[s unk]|p]; simpl in H |- *.
  - destruct H as (Hok & Hfld & Hunk & Hnil). split_and!.
    + intros k v Hk Hs. specialize (Hok k).
      rewrite (lookup_total_correct _ _ _ Hk) in Hok.
      apply Hok; [|done]. apply elem_of_StableKeys. by eexists.
    + intros k. rewrite Hfld. destruct (props !! k) as [v|] eqn:Hk; simpl.
      * rewrite (lookup_total_correct _ _ _ Hk).
        rewrite bool_decide_eq_true_2 by (apply elem_of_StableKeys; eauto).
        simpl. by destruct (skipped opts v).
      * rewrite bool_decide_eq_false_2; [by rewrite lookup_empty|].
        rewrite elem_of_StableKeys, Hk. by intros [? ?].
    + intros k. rewrite Hunk. split.
      * intros [Hk|(Hk & Hs & w & Hw)]; [by apply not_elem_of_empty in Hk|].
        apply elem_of_StableKeys in Hk as [v Hv].
        rewrite (lookup_total_correct _ _ _ Hv) in Hs, Hw. by exists v, w.
      * intros (v & w & Hv & Hs & Hw). right.
        rewrite (lookup_total_correct _ _ _ Hv).
        split_and!; [apply elem_of_StableKeys | |]; eauto.
    + rewrite Hnil. split.
      * intros [_ H] k v w b Hv Hs Hf. apply (H k w b); [| |].
        -- apply elem_of_StableKeys; eauto.
        -- by rewrite (lookup_total_correct _ _ _ Hv).
        -- by rewrite (lookup_total_correct _ _ _ Hv).
      * intros H. split; [done|]. intros k w b Hk Hs Hf.
        apply elem_of_StableKeys in Hk as [v Hv].
        rewrite (lookup_total_correct _ _ _ Hv) in Hs, Hf. eauto.
  - destruct H as (k & Hk & Hs & Hp).
    apply elem_of_StableKeys in Hk as [v Hv].
    rewrite (lookup_total_correct _ _ _ Hv) in Hs, Hp. by exists k, v.
Qed.

Lemma MarshalPropertiesWithUnknowns_spec props opts :
  match MarshalPropertiesWithUnknowns props opts with
  | Ok (s, unk) =>
      (∀ k v, props !! k = Some v → skipped opts v = false →
              is_Ok (MarshalPropertyValue v opts)) ∧
      (∀ k, s !! k =
            v ← props !! k;
            if skipped opts v then None
            else fst <$> ok (MarshalPropertyValue v opts)) ∧
      (∀ k, k ∈ unk_keys unk ↔
            ∃ v w, props !! k = Some v ∧ skipped opts v = false ∧
                   MarshalPropertyValue v opts = Ok (w, false)) ∧
      (unk = None ↔
       ∀ k v w b, props !! k = Some v → skipped opts v = false →
                  MarshalPropertyValue v opts = Ok (w, b) → b = true)
  | Panic p =>
      ∃ k v, props !! k = Some v ∧ skipped opts v = false ∧
             MarshalPropertyValue v opts = Panic p
  end.
Proof.
  apply (MarshalPropertiesWith_spec (λ v, MarshalPropertyValue v opts)).
Qed.

Lemma UnmarshalProperties_spec props opts :
  let fields : Struct := default ∅ props in
  match UnmarshalProperties props opts with
  | Ok obj =>
      (∀ k w, fields !! k = Some w →
              ∃ v, UnmarshalPropertyValue w opts = Ok v ∧
                   IsComputed v = false) ∧
      (∀ k, obj !! k =
            w ← fields !! k;
            match UnmarshalPropertyValue w opts with
            | Ok v => if SkipNulls opts && IsNull v then None else Some v
            | Panic _ => None
            end)
  | Panic p =>
      ∃ k w, fields !! k = Some w ∧
             (UnmarshalPropertyValue w opts = Panic p ∨
              ∃ v, UnmarshalPropertyValue w opts = Ok v ∧
                   IsComputed v = true ∧ p = DecodedComputed)
  end.
Proof.
  intros fields. unfold UnmarshalProperties, UnmarshalPropertiesWith.
  set (ks := match props with Some f => StableKeys f | None => [] end).
  assert (∀ k, k ∈ ks ↔ is_Some (fields !! k)) as Hks.
  { intros k. unfold ks, fields. destruct props as [f|]; simpl.
    - apply elem_of_StableKeys.
    - rewrite lookup_empty. split; [by intros ?%elem_of_nil | by intros [? ?]]. }
  pose proof (unmarshal_loop_spec opts
                (λ key, UnmarshalPropertyValue (fields !!! key) opts) ks ∅)
    as H.
  fold fields.
  destruct (forKeys _ ks ∅) as [obj|p].
  - destruct H as [Hok Hfld]. split.
    + intros k w Hw. specialize (Hok k).
      rewrite (lookup_total_correct _ _ _ Hw) in Hok.
      apply Hok, Hks. by eexists.
    + intros k. rewrite Hfld. destruct (fields !! k) as [w|] eqn:Hw; simpl.
      * rewrite bool_decide_eq_true_2 by (apply Hks; eauto).
        rewrite (lookup_total_correct _ _ _ Hw).
        destruct (UnmarshalPropertyValue w opts) as [v|]; [|done].
        by rewrite lookup_empty.
      * rewrite bool_decide_eq_false_2; [by rewrite lookup_empty|].
        rewrite Hks, Hw. by intros [? ?].
  - destruct H as (k & Hk & H). apply Hks in Hk as [w Hw].
    rewrite (lookup_total_correct _ _ _ Hw) in H. by exists k, w.
Qed.

(** ** Known and unknown values *)

Lemma fully_known_object m :
  fully_known (NewObjectProperty m) = true ↔
  map_Forall (λ _ x, fully_known x = true) m.
Proof. apply map_fold_andb. Qed.

Lemma fully_known_array l :
  fully_known (NewArrayProperty l) = true ↔
  Forall (λ x, fully_known x = true) l.
Proof. apply forallb_Forall. Qed.

Lemma fully_known_not_skipped opts v :
  fully_known v = true → skipped opts v = SkipNulls opts && IsNull v.
Proof. unfold skipped. by destruct v. Qed.

Lemma fully_known_NewPropertyValue p : fully_known (NewPropertyValue p) = true.
Proof.
  induction p as [| | | |l IH|m IH] using plain_induction; try done.
  - apply fully_known_array, Forall_fmap.
    eapply Forall_impl; [exact IH|]. by intros x Hx.
  - apply fully_known_object. intros k x.
    rewrite lookup_fmap. destruct (m !! k) as [p|] eqn:Hp; simpl; [|done].
    intros [= <-]. by apply (IH k p).
Qed.

Lemma marshalElems_known (f : PropertyValue → result (Value * bool)) vs :
  Forall (λ v, ∃ w, f v = Ok (w, true)) vs →
  ∀ outcome elems, ∃ ws, marshalElems f vs outcome elems = Ok (elems ++ ws, outcome).
Proof.
  induction 1 as [|v vs [w Hw] _ IH]; intros outcome elems; simpl.
  - exists []. by rewrite app_nil_r.
  - rewrite Hw. simpl. rewrite andb_true_r.
    destruct (IH outcome (elems ++ [w])) as [ws ->].
    exists (w :: ws). by rewrite <- app_assoc.
Qed.

(** A fully known value marshals, and marshals as known, whatever the asset
    and archive branches are, provided they do so themselves. *)
Lemma MarshalPropertyValueWith_known asset archive opts :
  (∀ a, ∃ w, asset a opts = Ok (w, true)) →
  (∀ a, ∃ w, archive a opts = Ok (w, true)) →
  ∀ v, fully_known v = true →
       ∃ w, MarshalPropertyValueWith asset archive v opts = Ok (w, true).
Proof.
  intros Hasset Harchive v.
  induction v as [| | | |l IH| | |m IH|e _|e _] using PropertyValue_induction;
    intros Hv; try done; try (by eexists); simpl in Hv.
  - apply fully_known_array in Hv.
    assert (Forall (λ v, ∃ w, MarshalPropertyValueWith asset archive v opts
                              = Ok (w, true)) l) as Hall.
    { apply Forall_forall. intros x Hx.
      rewrite Forall_forall in IH, Hv. by apply IH, Hv. }
    destruct (marshalElems_known _ l Hall true []) as [ws Hws].
    simpl. rewrite Hws. by eexists.
  - apply Hasset.
  - apply Harchive.
  - apply fully_known_object in Hv.
    rewrite MarshalPropertyValueWith_object.
    pose proof (MarshalPropertiesWith_spec
      (λ v, MarshalPropertyValueWith asset archive v opts) m opts) as H.
    destruct (MarshalPropertiesWith m opts _) as [[s unk]|p].
    + destruct H as (_ & _ & _ & Hnil).
      assert (unk = None) as ->.
      { apply Hnil. intros k v w b Hk _ Hm.
        destruct (IH k v Hk (Hv k v Hk)) as [w' Hw']. congruence. }
      by eexists.
    + destruct H as (k & v & Hk & _ & Hp).
      destruct (IH k v Hk (Hv k v Hk)) as [w' Hw']. congruence.
Qed.

Lemma marshalSerialized_known sera opts :
  ∃ w, marshalSerialized (NewPropertyMapFromMap sera) opts = Ok (w, true).
Proof.
  unfold marshalSerialized.
  rewrite (MarshalPropertyValueWith_plain _ _
             (λ _ _, Ok (Value_NullValue, true))
             (λ _ _, Ok (Value_NullValue, true)) opts (plain_map sera)).
  apply MarshalPropertyValueWith_known; try (intros; by eexists).
  apply fully_known_NewPropertyValue.
Qed.

(** Section 4.3: an asset or archive always marshals as known. *)
Lemma MarshalAsset_known a opts : ∃ w, MarshalAsset a opts = Ok (w, true).
Proof. apply marshalSerialized_known. Qed.

Lemma MarshalArchive_known a opts : ∃ w, MarshalArchive a opts = Ok (w, true).
Proof. apply marshalSerialized_known. Qed.

Lemma MarshalPropertyValue_known v opts :
  fully_known v = true → ∃ w, MarshalPropertyValue v opts = Ok (w, true).
Proof.
  apply (MarshalPropertyValueWith_known MarshalAsset MarshalArchive opts).
  - intros a. apply MarshalAsset_known.
  - intros a. apply MarshalArchive_known.
Qed.

(** The value under a computed key marshals as its element does, and as
    unknown. *)
Lemma MarshalPropertyValue_placeholder e opts w :
  IsComputed e = false → MarshalPropertyValue e opts = Ok (w, true) →
  MarshalPropertyValue (NewComputedProperty e) opts = Ok (w, false) ∧
  MarshalPropertyValue (NewOutputProperty e) opts = Ok (w, false).
Proof.
  intros He Hw.
  rewrite MarshalPropertyValue_computed, MarshalPropertyValue_output.
  by rewrite He, Hw.
Qed.

Lemma fully_known_not_computed (v : PropertyValue) :
  fully_known v = true → IsComputed v = false.
Proof. by destruct v. Qed.

Lemma skipped_computed opts e : skipped opts (NewComputedProperty e) = false.
Proof. unfold skipped. simpl. apply andb_false_r. Qed.

(** ** Properties of marshaling *)

(** The two placeholder branches, rpc.go:105-116, by cases on the element. *)
Definition placeholder (e : PropertyValue) (opts : MarshalOptions) :
    result (Value * bool) :=
  if IsComputed e then Panic ElementIsComputed
  else match MarshalPropertyValue e opts with
       | Ok (w, true) => Ok (w, false)
       | Ok (w, false) => Panic ElementNotKnown
       | Panic p => Panic p
       end.

Lemma MarshalPropertyValue_computed_cases e opts :
  MarshalPropertyValue (NewComputedProperty e) opts = placeholder e opts.
Proof.
  rewrite MarshalPropertyValue_computed. unfold placeholder.
  destruct (IsComputed e); [done|]. simpl.
  by destruct (MarshalPropertyValue e opts) as [[w [|]]|p].
Qed.

Lemma MarshalPropertyValue_output_cases e opts :
  MarshalPropertyValue (NewOutputProperty e) opts = placeholder e opts.
Proof.
  rewrite MarshalPropertyValue_output. unfold placeholder.
  destruct (IsComputed e); [done|]. simpl.
  by destruct (MarshalPropertyValue e opts) as [[w [|]]|p].
Qed.

(** C5, as amended.  Marshaling a computed or output value aborts when its
    element is itself computed; otherwise the element is marshaled: when that
    aborts, so does the whole; when the element is known, the result is the
    wire form of the element with the known flag false; and when the element
    is itself unknown (an output value, or an array or object holding an
    unknown), the assertion of rpc.go:109/115 aborts. *)
Theorem placeholder_marshaling (e : PropertyValue) (opts : MarshalOptions) :
  let outcome :=
    if IsComputed e then Panic ElementIsComputed
    else match MarshalPropertyValue e opts with
         | Ok (w, true) => Ok (w, false)
         | Ok (w, false) => Panic ElementNotKnown
         | Panic p => Panic p
         end in
  MarshalPropertyValue (NewComputedProperty e) opts = outcome ∧
  MarshalPropertyValue (NewOutputProperty e) opts = outcome.
Proof.
  split;
    [apply MarshalPropertyValue_computed_cases
    |apply MarshalPropertyValue_output_cases].
Qed.

Lemma placeholder_Ok_inv e opts w b :
  placeholder e opts = Ok (w, b) →
  IsComputed e = false ∧ MarshalPropertyValue e opts = Ok (w, true) ∧ b = false.
Proof.
  unfold placeholder. destruct (IsComputed e); [done|].
  destruct (MarshalPropertyValue e opts) as [[w' [|]]|p]; [|done|done].
  by intros [= -> <-].
Qed.

(** C4 (output suppression).  When the key [k] of a property map holds an
    output value, whatever the options are, the wire struct returned by
    [MarshalPropertiesWithUnknowns] has no field [k] (nor is [k] noted as
    unknown); and when marshaling aborts instead, it does so on the value of
    another key: the output value itself is never marshaled. *)
Theorem output_suppression (props : PropertyMap) (opts : MarshalOptions) k e :
  props !! k = Some (NewOutputProperty e) →
  match MarshalPropertiesWithUnknowns props opts with
  | Ok (s, unk) => s !! k = None ∧ k ∉ unk_keys unk
  | Panic p =>
      ∃ k' v, k' ≠ k ∧ props !! k' = Some v ∧ skipped opts v = false ∧
              MarshalPropertyValue v opts = Panic p
  end.
Proof.
  intros Hk. pose proof (MarshalPropertiesWithUnknowns_spec props opts) as H.
  destruct (MarshalPropertiesWithUnknowns props opts) as [[s unk]|p].
  - destruct H as (_ & Hfld & Hunk & _). split.
    + by rewrite Hfld, Hk.
    + rewrite Hunk. intros (v & w & Hv & Hs & _).
      rewrite Hk in Hv. by injection Hv as <-.
  - destruct H as (k' & v & Hv & Hs & Hp). exists k', v.
    split_and!; try done. intros ->.
    rewrite Hk in Hv. by injection Hv as <-.
Qed.

(** *** Unknowns that marshaling reaches *)

(** A value in which marshaling meets a computed or output value: the value
    itself, an element of an array, or the value of a key of an object,
    unless that key holds an output value, which is skipped with all that is
    inside it. *)
Fixpoint exposed (v : PropertyValue) : bool :=
  match v with
  | NewComputedProperty _ | NewOutputProperty _ => true
  | NewArrayProperty l => existsb exposed l
  | NewObjectProperty m =>
      map_fold (λ _ x acc, (negb (IsOutput x) && exposed x) || acc) false m
  | _ => false
  end.

Definition exposed_in (props : PropertyMap) : Prop :=
  ∃ k v, props !! k = Some v ∧ IsOutput v = false ∧ exposed v = true.

Lemma map_fold_orb {V : Type} (f : V → bool) (m : gmap string V) :
  map_fold (λ _ x acc, f x || acc) false m = true ↔
  ∃ k x, m !! k = Some x ∧ f x = true.
Proof.
  induction m as [|k v m Hk Hfold IH] using map_first_key_ind.
  - rewrite map_fold_empty. split; [done|].
    intros (k & x & Hx & _). by rewrite lookup_empty in Hx.
  - rewrite map_fold_insert_first_key by done.
    rewrite orb_true_iff, IH. split.
    + intros [Hv|(k' & x & Hx & Hf)].
      * exists k, v. by rewrite lookup_insert_eq.
      * exists k', x. split; [|done]. rewrite lookup_insert_ne; [done|].
        intros ->. by rewrite Hk in Hx.
    + intros (k' & x & Hx & Hf). destruct (decide (k = k')) as [->|Hne].
      * rewrite lookup_insert_eq in Hx. injection Hx as ->. by left.
      * rewrite lookup_insert_ne in Hx by done. right. by exists k', x.
Qed.

Lemma exposed_object m : exposed (NewObjectProperty m) = true ↔ exposed_in m.
Proof.
  simpl. rewrite map_fold_orb. unfold exposed_in.
  split; intros (k & x & Hx & H); exists k, x; (split; [done|]).
  - apply andb_true_iff in H as [H1 H2]. by apply negb_true_iff in H1.
  - destruct H as [H1 H2]. by rewrite H1, H2.
Qed.

Lemma exposed_not_skipped opts v :
  IsOutput v = false → exposed v = true → skipped opts v = false.
Proof. unfold skipped. intros -> Hv. destruct v; try done; simpl; apply andb_false_r. Qed.

Lemma marshalElems_unknown (f : PropertyValue → result (Value * bool)) vs x :
  x ∈ vs → (∀ w, f x ≠ Ok (w, true)) →
  ∀ outcome elems elems', marshalElems f vs outcome elems ≠ Ok (elems', true).
Proof.
  intros Hx Hfx outcome elems elems' H.
  pose proof (marshalElems_spec f vs outcome elems) as Hspec.
  rewrite H in Hspec. destruct Hspec as (wbs & Hall & _ & Hout).
  apply list_elem_of_lookup in Hx as [i Hi].
  destruct (Forall2_lookup_l _ _ _ _ _ Hall Hi) as ([w b] & Hwb & Hf).
  destruct b; [by apply (Hfx w)|].
  symmetry in Hout. apply andb_true_iff in Hout as [_ Hout].
  rewrite forallb_Forall, Forall_lookup in Hout.
  specialize (Hout i false). rewrite list_lookup_fmap, Hwb in Hout.
  by specialize (Hout eq_refl).
Qed.

Lemma MarshalPropertiesWithUnknowns_exposed props opts s :
  (∀ k v, props !! k = Some v → exposed v = true →
          ∀ w, MarshalPropertyValue v opts ≠ Ok (w, true)) →
  exposed_in props →
  MarshalPropertiesWithUnknowns props opts ≠ Ok (s, None).
Proof.
  intros IH (k & v & Hv & Hout & Hexp) H.
  pose proof (MarshalPropertiesWithUnknowns_spec props opts) as Hspec.
  rewrite H in Hspec. destruct Hspec as (Hok & _ & _ & Hnil).
  pose proof (exposed_not_skipped opts v Hout Hexp) as Hs.
  destruct (Hok k v Hv Hs) as [[w b] Hm].
  assert (b = true) as ->. { apply (proj1 Hnil eq_refl k v w b Hv Hs Hm). }
  by apply (IH k v Hv Hexp w).
Qed.

(** A value in which marshaling meets an unknown never marshals as known. *)
Lemma MarshalPropertyValue_exposed opts v :
  exposed v = true → ∀ w, MarshalPropertyValue v opts ≠ Ok (w, true).
Proof.
  induction v as [| | | |l IH| | |m IH|e _|e _] using PropertyValue_induction;
    intros Hv w; try done.
  - simpl in Hv. apply existsb_exists in Hv as (x & Hx & Hexp).
    apply list_elem_of_In in Hx.
    rewrite MarshalPropertyValue_array. intros H.
    apply bind_Ok_inv in H as ([elems outcome] & Helems & [= _ ->]).
    revert Helems. apply (marshalElems_unknown _ l x Hx).
    rewrite Forall_forall in IH. by apply IH.
  - apply exposed_object in Hv.
    rewrite MarshalPropertyValue_object. intros H.
    apply bind_Ok_inv in H as ([obj unks] & Hobj & [= _ Hnil]).
    destruct unks; [done|].
    revert Hobj. by apply MarshalPropertiesWithUnknowns_exposed.
  - rewrite MarshalPropertyValue_computed_cases. unfold placeholder.
    destruct (IsComputed e); [done|].
    by destruct (MarshalPropertyValue e opts) as [[? [|]]|].
  - rewrite MarshalPropertyValue_output_cases. unfold placeholder.
    destruct (IsComputed e); [done|].
    by destruct (MarshalPropertyValue e opts) as [[? [|]]|].
Qed.

(** C2, as amended.  [MarshalProperties] aborts on every property map in
    which marshaling meets a computed or output value: a computed value
    under a key, or a computed or output value inside the arrays and objects
    under a key.  (A key that holds an output value is skipped, with all that
    is inside it, and is no cause of an abort.) *)
Theorem strict_marshal_aborts (props : PropertyMap) (opts : MarshalOptions) :
  exposed_in props → is_Panic (MarshalProperties props opts).
Proof.
  intros Hexp. unfold MarshalProperties.
  destruct (MarshalPropertiesWithUnknowns props opts) as [[s unk]|p] eqn:H;
    simpl; [|by eexists].
  destruct unk as [U|]; simpl; [by eexists|].
  exfalso. revert H. apply MarshalPropertiesWithUnknowns_exposed; [|done].
  intros k v _. apply MarshalPropertyValue_exposed.
Qed.

(** ** Properties of unmarshaling *)

(** The struct branch (rpc.go:178-189), case by case: an abort while the
    fields are decoded is the abort of the whole; on the decoded map the
    asset recognizer runs first, then the archive recognizer, and a map that
    neither accepts is wrapped as an object. *)
Lemma UnmarshalPropertyValue_sniff (s : option Struct) (opts : MarshalOptions) :
  (∀ p, UnmarshalProperties s opts = Panic p →
        UnmarshalPropertyValue (Value_StructValue s) opts = Panic p) ∧
  (∀ obj, UnmarshalProperties s opts = Ok obj →
     (∀ asset, DeserializeAsset obj = Some asset →
        UnmarshalPropertyValue (Value_StructValue s) opts =
        Ok (NewAssetProperty asset)) ∧
     (∀ archive, DeserializeAsset obj = None →
        DeserializeArchive obj = Some archive →
        UnmarshalPropertyValue (Value_StructValue s) opts =
        Ok (NewArchiveProperty archive)) ∧
     (DeserializeAsset obj = None → DeserializeArchive obj = None →
        UnmarshalPropertyValue (Value_StructValue s) opts =
        Ok (NewObjectProperty obj))).
Proof.
  rewrite UnmarshalPropertyValue_struct. split.
  - by intros p ->.
  - intros obj ->. simpl. split_and!.
    + by intros asset ->.
    + by intros archive -> ->.
    + by intros -> ->.
Qed.

Lemma UnmarshalPropertyValue_not_computed v opts pv :
  UnmarshalPropertyValue v opts = Ok pv →
  IsComputed pv = false ∧ IsOutput pv = false.
Proof.
  destruct v as [| | | | | |values|s]; try (by intros [= <-]); try done.
  - pose proof (UnmarshalPropertyValue_list values opts) as H.
    intros Hv. rewrite Hv in H. by destruct H as (pvs & _ & ->).
  - rewrite UnmarshalPropertyValue_struct.
    intros (obj & _ & H)%bind_Ok_inv.
    destruct (DeserializeAsset obj); [by injection H as <-|].
    destruct (DeserializeArchive obj); by injection H as <-.
Qed.

(** The assertion of rpc.go:141 never fires, in no wire value at all. *)
Lemma UnmarshalPropertyValue_no_DecodedComputed opts v :
  UnmarshalPropertyValue v opts ≠ Panic DecodedComputed.
Proof.
  induction v as [| | | | | |values IH| |fields IH] using Value_induction;
    try done.
  - pose proof (UnmarshalPropertyValue_list values opts) as H. intros Hv.
    rewrite Hv in H. destruct H as (x & Hx & Hp).
    rewrite Forall_forall in IH. by apply (IH x Hx).
  - rewrite UnmarshalPropertyValue_struct. simpl.
    destruct (DeserializeAsset _); [done|]. by destruct (DeserializeArchive _).
  - rewrite UnmarshalPropertyValue_struct.
    pose proof (UnmarshalProperties_spec (Some fields) opts) as H.
    simpl in H. intros Hv.
    destruct (UnmarshalProperties (Some fields) opts) as [obj|p].
    + simpl in Hv. destruct (DeserializeAsset obj); [done|].
      by destruct (DeserializeArchive obj).
    + simpl in Hv. injection Hv as ->.
      destruct H as (k & w & Hw & [Hp|(pv & Hpv & Hc & _)]).
      * by apply (IH k w Hw).
      * apply UnmarshalPropertyValue_not_computed in Hpv as [Hpv _].
        congruence.
Qed.

Lemma UnmarshalProperties_no_DecodedComputed props opts :
  UnmarshalProperties props opts ≠ Panic DecodedComputed.
Proof.
  pose proof (UnmarshalProperties_spec props opts) as H. simpl in H.
  intros Hp. rewrite Hp in H.
  destruct H as (k & w & Hw & [H|(pv & Hpv & Hc & _)]).
  - by apply UnmarshalPropertyValue_no_DecodedComputed in H.
  - apply UnmarshalPropertyValue_not_computed in Hpv as [Hpv _]. congruence.
Qed.

Lemma Value_closed_list values :
  Value_closed (Value_ListValue values) = true ↔
  Forall (λ x, Value_closed x = true) values.
Proof. apply forallb_Forall. Qed.

Lemma Value_closed_struct fields :
  Value_closed (Value_StructValue (Some fields)) = true ↔
  map_Forall (λ _ x, Value_closed x = true) fields.
Proof. apply map_fold_andb. Qed.

Lemma Forall2_total {A B : Type} (R : A → B → Prop) (l : list A) :
  Forall (λ x, ∃ y, R x y) l → ∃ k, Forall2 R l k.
Proof.
  induction 1 as [|x l [y Hy] _ [k Hk]]; [by exists [] |].
  exists (y :: k). by constructor.
Qed.

(** Every value of the closed wire-kind set decodes. *)
Lemma UnmarshalPropertyValue_total opts v :
  Value_closed v = true → is_Ok (UnmarshalPropertyValue v opts).
Proof.
  induction v as [| | | | | |values IH| |fields IH] using Value_induction;
    intros Hv; try done; try (by eexists).
  - apply Value_closed_list in Hv.
    pose proof (UnmarshalPropertyValue_list values opts) as H.
    destruct (UnmarshalPropertyValue (Value_ListValue values) opts) as [pv|p];
      [by eexists|].
    destruct H as (x & Hx & Hp). rewrite Forall_forall in IH, Hv.
    destruct (IH x Hx (Hv x Hx)) as [pv Hpv]. congruence.
  - rewrite UnmarshalPropertyValue_struct. simpl.
    destruct (DeserializeAsset _); [by eexists|].
    destruct (DeserializeArchive _); by eexists.
  - apply Value_closed_struct in Hv.
    rewrite UnmarshalPropertyValue_struct.
    pose proof (UnmarshalProperties_spec (Some fields) opts) as H.
    simpl in H.
    destruct (UnmarshalProperties (Some fields) opts) as [obj|p]; simpl.
    + destruct (DeserializeAsset obj); [by eexists|].
      destruct (DeserializeArchive obj); by eexists.
    + destruct H as (k & w & Hw & [Hp|(pv & Hpv & Hc & _)]).
      * destruct (IH k w Hw (Hv k w Hw)) as [pv Hpv]. congruence.
      * apply UnmarshalPropertyValue_not_computed in Hpv as [Hpv _].
        congruence.
Qed.

(** C8.  A wire value of the closed wire-kind set always decodes, and to a
    property value that is not computed; so the assertion of
    [UnmarshalProperties] that a decoded field is not computed never fires,
    on no wire struct at all. *)
Theorem unmarshal_never_computed (v : Value) (opts : MarshalOptions) :
  Value_closed v = true →
  (∃ pv, UnmarshalPropertyValue v opts = Ok pv ∧ IsComputed pv = false) ∧
  (∀ props, UnmarshalProperties props opts ≠ Panic DecodedComputed).
Proof.
  intros Hv. split.
  - destruct (UnmarshalPropertyValue_total opts v Hv) as [pv Hpv].
    exists pv. split; [done|].
    by apply UnmarshalPropertyValue_not_computed in Hpv as [? _].
  - intros props. apply UnmarshalProperties_no_DecodedComputed.
Qed.

Lemma UnmarshalPropertyValue_fully_known opts v pv :
  UnmarshalPropertyValue v opts = Ok pv → fully_known pv = true.
Proof.
  revert pv.
  induction v as [| | | | | |values IH| |fields IH] using Value_induction;
    intros pv; try done; try (by intros [= <-]).
  - pose proof (UnmarshalPropertyValue_list values opts) as H.
    intros Hv. rewrite Hv in H. destruct H as (pvs & Hall & ->).
    apply fully_known_array, Forall_forall. intros x Hx.
    apply list_elem_of_lookup in Hx as [i Hi].
    destruct (Forall2_lookup_r _ _ _ _ _ Hall Hi) as (w & Hw & Hx).
    rewrite Forall_lookup in IH. by apply (IH i w Hw).
  - rewrite UnmarshalPropertyValue_struct. simpl.
    destruct (DeserializeAsset _); [by intros [= <-]|].
    destruct (DeserializeArchive _); by intros [= <-].
  - rewrite UnmarshalPropertyValue_struct.
    pose proof (UnmarshalProperties_spec (Some fields) opts) as H.
    simpl in H. intros (obj & Hobj & Hpv)%bind_Ok_inv.
    rewrite Hobj in H. destruct H as [_ Hfld].
    destruct (DeserializeAsset obj); [by injection Hpv as <-|].
    destruct (DeserializeArchive obj); injection Hpv as <-; [done|].
    apply fully_known_object. intros k x Hx.
    rewrite Hfld in Hx. destruct (fields !! k) as [w|] eqn:Hw; [|done].
    simpl in Hx.
    destruct (UnmarshalPropertyValue w opts) as [x'|] eqn:Hw'; [|done].
    destruct (SkipNulls opts && IsNull x'); [done|]. injection Hx as ->.
    by apply (IH k w Hw).
Qed.

Lemma UnmarshalProperties_fully_known opts props obj :
  UnmarshalProperties props opts = Ok obj →
  map_Forall (λ _ pv, fully_known pv = true) obj.
Proof.
  pose proof (UnmarshalProperties_spec props opts) as H. simpl in H.
  intros Hobj. rewrite Hobj in H. destruct H as [_ Hfld].
  intros k x Hx. rewrite Hfld in Hx.
  destruct (default ∅ props !! k) as [w|] eqn:Hw; [|done]. simpl in Hx.
  destruct (UnmarshalPropertyValue w opts) as [x'|] eqn:Hw'; [|done].
  destruct (SkipNulls opts && IsNull x'); [done|]. injection Hx as ->.
  by apply UnmarshalPropertyValue_fully_known in Hw'.
Qed.

(** C10.  No result of [UnmarshalPropertyValue] is an output value (or a
    computed one), and none holds a computed or output value at any depth;
    so every value of a property map decoded by [UnmarshalProperties] is
    free of computed and output values at every depth. *)
Theorem decoded_without_unknowns (opts : MarshalOptions) :
  (∀ v pv, UnmarshalPropertyValue v opts = Ok pv →
           IsOutput pv = false ∧ IsComputed pv = false ∧
           fully_known pv = true) ∧
  (∀ props obj, UnmarshalProperties props opts = Ok obj →
                map_Forall (λ _ pv, fully_known pv = true) obj).
Proof.
  split.
  - intros v pv Hpv. split_and!.
    + by apply UnmarshalPropertyValue_not_computed in Hpv as [_ ?].
    + by apply UnmarshalPropertyValue_not_computed in Hpv as [? _].
    + by apply UnmarshalPropertyValue_fully_known in Hpv.
  - apply UnmarshalProperties_fully_known.
Qed.

(** ** Null skipping and the round trip *)

(** C7 (null skipping).  With [SkipNulls] set, marshaling
    [{"a": Null, "b": "x"}] yields the wire struct with the only field
    ["b"], the string ["x"], and unmarshaling drops the keys whose value
    decodes to null from the property map; with [SkipNulls] unset both keys
    appear, ["a"] as the wire null. *)
Theorem null_skipping (old raw : bool) :
  let skip := {| SkipNulls := true; OldURNs := old; RawResources := raw |} in
  let keep := {| SkipNulls := false; OldURNs := old; RawResources := raw |} in
  let props : PropertyMap :=
    {[ "a" := NewNullProperty; "b" := NewStringProperty "x" ]} in
  let wire : Struct :=
    {[ "a" := Value_NullValue; "b" := Value_StringValue "x" ]} in
  MarshalPropertiesWithUnknowns props skip =
    Ok ({[ "b" := Value_StringValue "x" ]}, None) ∧
  MarshalPropertiesWithUnknowns props keep = Ok (wire, None) ∧
  UnmarshalProperties (Some wire) skip =
    Ok {[ "b" := NewStringProperty "x" ]} ∧
  UnmarshalProperties (Some wire) keep = Ok props ∧
  (∀ m s unk k, MarshalPropertiesWithUnknowns m skip = Ok (s, unk) →
                m !! k = Some NewNullProperty → s !! k = None) ∧
  (∀ s obj k, UnmarshalProperties s skip = Ok obj →
              obj !! k ≠ Some NewNullProperty).
Proof.
  intros skip keep props wire. split_and!.
  - by destruct old, raw; vm_compute.
  - by destruct old, raw; vm_compute.
  - by destruct old, raw; vm_compute.
  - by destruct old, raw; vm_compute.
  - intros m s unk k Hm Hk.
    pose proof (MarshalPropertiesWithUnknowns_spec m skip) as H.
    rewrite Hm in H. destruct H as (_ & Hfld & _). by rewrite Hfld, Hk.
  - intros s obj k Hobj Hk.
    pose proof (UnmarshalProperties_spec s skip) as H. simpl in H.
    rewrite Hobj in H. destruct H as [_ Hfld]. rewrite Hfld in Hk.
    destruct (default ∅ s !! k) as [w|]; [|done]. simpl in Hk.
    destruct (UnmarshalPropertyValue w skip) as [x|]; [|done].
    destruct (IsNull x) eqn:Hx; [done|]. by injection Hk as ->.
Qed.

Definition no_match {A : Type} (o : option A) : bool :=
  match o with None => true | Some _ => false end.

(** A value none of whose objects, at any depth, is taken for an asset or
    an archive by the recognizers. *)
Fixpoint not_sniffed (v : PropertyValue) : bool :=
  match v with
  | NewArrayProperty l => forallb not_sniffed l
  | NewObjectProperty m =>
      no_match (DeserializeAsset m) && no_match (DeserializeArchive m) &&
      map_fold (λ _ x acc, not_sniffed x && acc) true m
  | _ => true
  end.

Lemma only_plain_array l :
  only_plain (NewArrayProperty l) = true ↔
  Forall (λ x, only_plain x = true) l.
Proof. apply forallb_Forall. Qed.

Lemma only_plain_object m :
  only_plain (NewObjectProperty m) = true ↔
  map_Forall (λ _ x, only_plain x = true) m.
Proof. apply map_fold_andb. Qed.

Lemma not_sniffed_array l :
  not_sniffed (NewArrayProperty l) = true ↔
  Forall (λ x, not_sniffed x = true) l.
Proof. apply forallb_Forall. Qed.

Lemma not_sniffed_object m :
  not_sniffed (NewObjectProperty m) = true ↔
  DeserializeAsset m = None ∧ DeserializeArchive m = None ∧
  map_Forall (λ _ x, not_sniffed x = true) m.
Proof.
  cbn [not_sniffed]. rewrite !andb_true_iff, map_fold_andb.
  destruct (DeserializeAsset m), (DeserializeArchive m); simpl; naive_solver.
Qed.

Lemma only_plain_not_skipped opts v :
  SkipNulls opts = false → only_plain v = true → skipped opts v = false.
Proof. unfold skipped. intros ->. by destruct v. Qed.

Lemma only_plain_not_computed (v : PropertyValue) :
  only_plain v = true → IsComputed v = false.
Proof. by destruct v. Qed.

Lemma marshalElems_inverse (f : PropertyValue → result (Value * bool)) l ws :
  Forall2 (λ x w, f x = Ok (w, true)) l ws →
  ∀ outcome elems, marshalElems f l outcome elems = Ok (elems ++ ws, outcome).
Proof.
  induction 1 as [|x w l ws Hx _ IH]; intros outcome elems; simpl.
  - by rewrite app_nil_r.
  - rewrite Hx. simpl. rewrite andb_true_r, IH. by rewrite <- app_assoc.
Qed.

Lemma unmarshalElems_inverse (g : Value → result PropertyValue) l ws :
  Forall2 (λ x w, g w = Ok x) l ws →
  ∀ elems, unmarshalElems g ws (length elems) elems = Ok (elems ++ l).
Proof.
  intros Hall elems.
  pose proof (unmarshalElems_spec g ws elems) as H.
  destruct (unmarshalElems g ws (length elems) elems) as [elems'|p].
  - destruct H as (pvs & Hpvs & ->). do 2 f_equal.
    clear elems. revert pvs Hpvs.
    induction Hall as [|x w l ws Hx _ IH]; intros pvs Hpvs.
    + by apply Forall2_nil_inv_l in Hpvs.
    + apply Forall2_cons_inv_l in Hpvs as (pv & pvs' & Hpv & Hpvs' & ->).
      f_equal; [congruence | by apply IH].
  - destruct H as (w & Hw & Hp). exfalso.
    apply list_elem_of_lookup in Hw as [i Hi].
    destruct (Forall2_lookup_r _ _ _ _ _ Hall Hi) as (x & _ & Hx). congruence.
Qed.

(** C1, as amended (round trip).  Under options that do not skip nulls, in
    particular the default ones, a property value built only from null,
    bool, number, string, array and object, none of whose objects is taken
    for an asset or an archive by the recognizers, marshals as known, and
    unmarshaling its wire form returns the value itself. *)
Theorem round_trip (v : PropertyValue) (opts : MarshalOptions) :
  SkipNulls opts = false → only_plain v = true → not_sniffed v = true →
  ∃ w, MarshalPropertyValue v opts = Ok (w, true) ∧
       UnmarshalPropertyValue w opts = Ok v.
Proof.
  intros Hskip.
  induction v as [| | | |l IH| | |m IH|e _|e _] using PropertyValue_induction;
    intros Hp Hn; try done; try (by eexists).
  - apply only_plain_array in Hp. apply not_sniffed_array in Hn.
    assert (Forall (λ x, ∃ w, MarshalPropertyValue x opts = Ok (w, true) ∧
                              UnmarshalPropertyValue w opts = Ok x) l) as Hall.
    { apply Forall_forall. intros x Hx.
      rewrite Forall_forall in IH, Hp, Hn.
      apply (IH x Hx); [by apply Hp | by apply Hn]. }
    apply Forall2_total in Hall as [ws Hws].
    exists (Value_ListValue ws). split.
    + assert (Forall2 (λ x w, MarshalPropertyValue x opts = Ok (w, true)) l ws)
        as Hm.
      { eapply Forall2_impl; [exact Hws|]. by intros x w [? _]. }
      rewrite MarshalPropertyValue_array.
      by rewrite (marshalElems_inverse
                    (λ elem, MarshalPropertyValue elem opts) l ws Hm).
    + assert (Forall2 (λ x w, UnmarshalPropertyValue w opts = Ok x) l ws)
        as Hu.
      { eapply Forall2_impl; [exact Hws|]. by intros x w [_ ?]. }
      pose proof (unmarshalElems_inverse
                    (λ elem, UnmarshalPropertyValue elem opts) l ws Hu []) as E.
      simpl in E |- *. by rewrite E.
  - apply only_plain_object in Hp.
    apply not_sniffed_object in Hn as (Hn1 & Hn2 & Hn3).
    assert (∀ k x, m !! k = Some x →
                   ∃ w, MarshalPropertyValue x opts = Ok (w, true) ∧
                        UnmarshalPropertyValue w opts = Ok x) as Hall.
    { intros k x Hx. by apply (IH k x Hx); [apply (Hp k) | apply (Hn3 k)]. }
    assert (∀ k x, m !! k = Some x → skipped opts x = false) as Hns.
    { intros k x Hx. apply only_plain_not_skipped; [done | by apply (Hp k)]. }
    rewrite MarshalPropertyValue_object.
    pose proof (MarshalPropertiesWithUnknowns_spec m opts) as H.
    destruct (MarshalPropertiesWithUnknowns m opts) as [[s unk]|p].
    2:{ destruct H as (k & x & Hx & _ & Hpanic).
        destruct (Hall k x Hx) as (w & Hw & _). congruence. }
    destruct H as (_ & Hfld & _ & Hnil).
    assert (unk = None) as ->.
    { apply Hnil. intros k x w b Hx _ Hm.
      destruct (Hall k x Hx) as (w' & Hw' & _). congruence. }
    exists (MarshalStruct s opts). split; [done|].
    unfold MarshalStruct. rewrite UnmarshalPropertyValue_struct.
    pose proof (UnmarshalProperties_spec (Some s) opts) as H. simpl in H.
    destruct (UnmarshalProperties (Some s) opts) as [obj|p].
    + destruct H as [_ Hobj]. assert (obj = m) as ->.
      { apply map_eq. intros k. rewrite Hobj, Hfld.
        destruct (m !! k) as [x|] eqn:Hx; [|done]. simpl.
        destruct (Hall k x Hx) as (w & Hw & Hu).
        rewrite (Hns k x Hx), Hw. simpl. rewrite Hu, Hskip. done. }
      simpl. by rewrite Hn1, Hn2.
    + exfalso. destruct H as (k & w & Hw & H).
      rewrite Hfld in Hw. destruct (m !! k) as [x|] eqn:Hx; [|done].
      simpl in Hw. destruct (Hall k x Hx) as (w' & Hw' & Hu).
      rewrite (Hns k x Hx), Hw' in Hw. injection Hw as <-.
      destruct H as [H|(pv & Hpv & Hc & _)]; [congruence|].
      rewrite Hu in Hpv. injection Hpv as <-.
      rewrite only_plain_not_computed in Hc; [done | by apply (Hp k)].
Qed.

Lemma only_plain_NewPropertyValue p : only_plain (NewPropertyValue p) = true.
Proof.
  induction p as [| | | |l IH|m IH] using plain_induction; try done.
  - apply only_plain_array, Forall_fmap.
    eapply Forall_impl; [exact IH|]. by intros x Hx.
  - apply only_plain_object. intros k x.
    rewrite lookup_fmap. destruct (m !! k) as [p|] eqn:Hp; simpl; [|done].
    intros [= <-]. by apply (IH k p).
Qed.

(** Why the round trip needs the side condition on objects: whenever an
    asset survives the wire (section 8, asset fidelity), the object made of
    its serialized form, which is built from plain values only, marshals to
    the same wire value and therefore comes back as the asset, not as the
    object. *)
Lemma serialized_asset_comes_back a opts w :
  MarshalPropertyValue (NewAssetProperty a) opts = Ok (w, true) →
  UnmarshalPropertyValue w opts = Ok (NewAssetProperty a) →
  let v := NewObjectProperty (NewPropertyMapFromMap (Asset_Serialize a)) in
  only_plain v = true ∧
  MarshalPropertyValue v opts = Ok (w, true) ∧
  UnmarshalPropertyValue w opts ≠ Ok v.
Proof.
  intros Hm Hu v. split_and!.
  - apply (only_plain_NewPropertyValue (plain_map (Asset_Serialize a))).
  - unfold v. rewrite <- MarshalAsset_eq. exact Hm.
  - rewrite Hu. discriminate.
Qed.

(** ** Further properties of marshaling *)

Definition placeholder_panic (p : panic) : Prop :=
  p = ElementIsComputed ∨ p = ElementNotKnown.

Lemma MarshalPropertyValueWith_panic asset archive opts :
  (∀ a p, asset a opts = Panic p → placeholder_panic p) →
  (∀ a p, archive a opts = Panic p → placeholder_panic p) →
  ∀ v p, MarshalPropertyValueWith asset archive v opts = Panic p →
         placeholder_panic p.
Proof.
  intros Hasset Harchive v.
  induction v as [| | | |l IH| | |m IH|e IH|e IH] using PropertyValue_induction;
    intros p; try done.
  - simpl.
    pose proof (marshalElems_spec
      (λ elem, MarshalPropertyValueWith asset archive elem opts) l true [])
      as H.
    destruct (marshalElems _ l true []) as [[elems outcome]|q]; [done|].
    simpl. intros [= ->]. destruct H as (x & Hx & Hp).
    rewrite Forall_forall in IH. by apply (IH x Hx).
  - apply Hasset.
  - apply Harchive.
  - rewrite MarshalPropertyValueWith_object.
    pose proof (MarshalPropertiesWith_spec
      (λ v, MarshalPropertyValueWith asset archive v opts) m opts) as H.
    destruct (MarshalPropertiesWith m opts _) as [[s unk]|q]; [done|].
    simpl. intros [= ->]. destruct H as (k & x & Hx & _ & Hp).
    by apply (IH k x Hx).
  - simpl. destruct (IsComputed e); simpl; [intros [= <-]; by left|].
    destruct (MarshalPropertyValueWith asset archive e opts)
      as [[w [|]]|q] eqn:He; simpl; [done | intros [= <-]; by right |].
    intros [= ->]. by apply IH.
  - simpl. destruct (IsComputed e); simpl; [intros [= <-]; by left|].
    destruct (MarshalPropertyValueWith asset archive e opts)
      as [[w [|]]|q] eqn:He; simpl; [done | intros [= <-]; by right |].
    intros [= ->]. by apply IH.
Qed.

Lemma MarshalPropertyValue_panic v opts p :
  MarshalPropertyValue v opts = Panic p → placeholder_panic p.
Proof.
  apply (MarshalPropertyValueWith_panic MarshalAsset MarshalArchive opts).
  - intros a q Hq. destruct (MarshalAsset_known a opts) as [w Hw]. congruence.
  - intros a q Hq. destruct (MarshalArchive_known a opts) as [w Hw]. congruence.
Qed.

(** ** Further properties of unmarshaling *)

Lemma UnmarshalPropertyValue_Ok_closed opts v :
  is_Ok (UnmarshalPropertyValue v opts) → Value_closed v = true.
Proof.
  induction v as [| | | | | |values IH| |fields IH] using Value_induction;
    try done; try (by intros [? ?]).
  - intros [pv Hpv].
    pose proof (UnmarshalPropertyValue_list values opts) as H.
    rewrite Hpv in H. destruct H as (pvs & Hall & _).
    apply Value_closed_list, Forall_forall. intros x Hx.
    apply list_elem_of_lookup in Hx as [i Hi].
    destruct (Forall2_lookup_l _ _ _ _ _ Hall Hi) as (pv' & _ & Hx).
    rewrite Forall_lookup in IH. apply (IH i x Hi). by eexists.
  - intros [pv Hpv]. rewrite UnmarshalPropertyValue_struct in Hpv.
    apply bind_Ok_inv in Hpv as (obj & Hobj & _).
    pose proof (UnmarshalProperties_spec (Some fields) opts) as H.
    simpl in H. rewrite Hobj in H. destruct H as [Hok _].
    apply Value_closed_struct. intros k w Hw.
    destruct (Hok k w Hw) as (x & Hx & _). apply (IH k w Hw). by eexists.
Qed.

Definition wire_panic (p : panic) : Prop := p = NilValue ∨ p = UnrecognizedKind.

Lemma UnmarshalPropertyValue_panic opts v p :
  UnmarshalPropertyValue v opts = Panic p → wire_panic p.
Proof.
  revert p.
  induction v as [| | | | | |values IH| |fields IH] using Value_induction;
    intros p; try done.
  - intros [= <-]. by left.
  - intros [= <-]. by right.
  - pose proof (UnmarshalPropertyValue_list values opts) as H. intros Hv.
    rewrite Hv in H. destruct H as (x & Hx & Hp).
    rewrite Forall_forall in IH. by apply (IH x Hx).
  - rewrite UnmarshalPropertyValue_struct. simpl.
    destruct (DeserializeAsset _); [done|]. by destruct (DeserializeArchive _).
  - rewrite UnmarshalPropertyValue_struct.
    pose proof (UnmarshalProperties_spec (Some fields) opts) as H.
    simpl in H.
    destruct (UnmarshalProperties (Some fields) opts) as [obj|q]; simpl.
    + destruct (DeserializeAsset obj); [done|].
      by destruct (DeserializeArchive obj).
    + intros [= ->].
      destruct H as (k & w & Hw & [Hp|(pv & Hpv & Hc & _)]).
      * by apply (IH k w Hw).
      * apply UnmarshalPropertyValue_not_computed in Hpv as [Hpv _].
        congruence.
Qed.

(** X2.  On the wire values that [Value] stands for (a nil pointer, an
    unset kind, or one of the six kinds with its wrapper; a kind that holds
    a nil wrapper pointer is not among them), [UnmarshalPropertyValue]
    returns a property value exactly on those of the closed kind set, which
    hold no nil value and no value without a kind at any depth; on the
    others it aborts, and only at the assertion that the value is not nil or
    at the failure on an unrecognized kind: the assertion on the length of
    the decoded slice (rpc.go:173) never fires. *)
Theorem unmarshal_succeeds_iff_closed (v : Value) (opts : MarshalOptions) :
  (is_Ok (UnmarshalPropertyValue v opts) ↔ Value_closed v = true) ∧
  (∀ p, UnmarshalPropertyValue v opts = Panic p →
        p = NilValue ∨ p = UnrecognizedKind).
Proof.
  split; [split|].
  - apply UnmarshalPropertyValue_Ok_closed.
  - apply UnmarshalPropertyValue_total.
  - intros p. apply UnmarshalPropertyValue_panic.
Qed.

(** *** The options that are read *)

Lemma marshalProperty_opts opts opts' props marshal key st :
  SkipNulls opts = SkipNulls opts' →
  marshalProperty opts props marshal key st =
  marshalProperty opts' props marshal key st.
Proof. unfold marshalProperty. by intros ->. Qed.

Lemma MarshalPropertyValueWith_opts asset archive opts opts' :
  SkipNulls opts = SkipNulls opts' →
  (∀ a, asset a opts = asset a opts') →
  (∀ a, archive a opts = archive a opts') →
  ∀ v, MarshalPropertyValueWith asset archive v opts =
       MarshalPropertyValueWith asset archive v opts'.
Proof.
  intros Hskip Hasset Harchive v.
  induction v as [| | | |l IH| | |m IH|e IH|e IH] using PropertyValue_induction;
    try done.
  - simpl. f_equal. by apply marshalElems_ext.
  - apply Hasset.
  - apply Harchive.
  - rewrite !MarshalPropertyValueWith_object. f_equal.
    apply forKeys_ext. intros key st Hkey.
    rewrite (marshalProperty_opts opts opts') by done.
    apply marshalProperty_ext.
    apply elem_of_StableKeys in Hkey as [x Hx].
    rewrite (lookup_total_correct _ _ _ Hx). by apply (IH key x).
  - simpl. by rewrite IH.
  - simpl. by rewrite IH.
Qed.

Lemma MarshalPropertyValue_opts opts opts' v :
  SkipNulls opts = SkipNulls opts' →
  MarshalPropertyValue v opts = MarshalPropertyValue v opts'.
Proof.
  intros Hskip. apply MarshalPropertyValueWith_opts; [done | |];
    intros a; by apply MarshalPropertyValueWith_opts.
Qed.

Lemma unmarshalElems_ext (f g : Value → result PropertyValue) values :
  Forall (λ v, f v = g v) values →
  ∀ i elems, unmarshalElems f values i elems = unmarshalElems g values i elems.
Proof.
  induction 1 as [|v values Hv _ IH]; intros i elems; simpl; [done|].
  rewrite Hv.
  destruct (Assert _ _) as [[]|p]; simpl; [|done].
  destruct (g v) as [e|p]; simpl; [apply IH | done].
Qed.

Lemma UnmarshalPropertyValue_opts opts opts' v :
  SkipNulls opts = SkipNulls opts' →
  UnmarshalPropertyValue v opts = UnmarshalPropertyValue v opts'.
Proof.
  intros Hskip.
  induction v as [| | | | | |values IH| |fields IH] using Value_induction;
    try done.
  - simpl. f_equal. by apply unmarshalElems_ext.
  - rewrite !UnmarshalPropertyValue_struct. f_equal.
    apply forKeys_ext. intros key st Hkey.
    apply elem_of_StableKeys in Hkey as [w Hw].
    unfold unmarshalField. simpl.
    rewrite (lookup_total_correct _ _ _ Hw), (IH key w Hw). by rewrite Hskip.
Qed.

(** X3.  Of the marshal options only [SkipNulls] is read: two option values
    that agree on it, whatever their [OldURNs] and [RawResources] are, give
    the same result, abort included, for every property value, property
    map, wire value and wire struct. *)
Theorem only_SkipNulls_matters (opts opts' : MarshalOptions) :
  SkipNulls opts = SkipNulls opts' →
  (∀ v, MarshalPropertyValue v opts = MarshalPropertyValue v opts') ∧
  (∀ props, MarshalPropertiesWithUnknowns props opts =
            MarshalPropertiesWithUnknowns props opts') ∧
  (∀ props, MarshalProperties props opts = MarshalProperties props opts') ∧
  (∀ w, UnmarshalPropertyValue w opts = UnmarshalPropertyValue w opts') ∧
  (∀ s, UnmarshalProperties s opts = UnmarshalProperties s opts').
Proof.
  intros Hskip.
  assert (∀ props, MarshalPropertiesWithUnknowns props opts =
                   MarshalPropertiesWithUnknowns props opts') as Hmap.
  { intros props. apply forKeys_ext. intros key st _.
    rewrite (marshalProperty_opts opts opts') by done.
    apply marshalProperty_ext. by apply MarshalPropertyValue_opts. }
  split_and!.
  - intros v. by apply MarshalPropertyValue_opts.
  - exact Hmap.
  - intros props. unfold MarshalProperties. by rewrite Hmap.
  - intros w. by apply UnmarshalPropertyValue_opts.
  - intros s. apply forKeys_ext. intros key st _.
    unfold unmarshalField.
    rewrite (UnmarshalPropertyValue_opts opts opts') by done.
    by rewrite Hskip.
Qed.

(** *** The wire values that marshaling produces *)

Lemma MarshalPropertyValueWith_closed asset archive opts :
  (∀ a w b, asset a opts = Ok (w, b) → Value_closed w = true) →
  (∀ a w b, archive a opts = Ok (w, b) → Value_closed w = true) →
  ∀ v w b, MarshalPropertyValueWith asset archive v opts = Ok (w, b) →
           Value_closed w = true.
Proof.
  intros Hasset Harchive v.
  induction v as [| | | |l IH| | |m IH|e IH|e IH] using PropertyValue_induction;
    intros w known; try (by intros [= <- _]).
  - simpl.
    pose proof (marshalElems_spec
      (λ elem, MarshalPropertyValueWith asset archive elem opts) l true [])
      as H.
    destruct (marshalElems _ l true []) as [[elems outcome]|q]; [|done].
    simpl. intros [= <- _]. destruct H as (wbs & Hall & -> & _). simpl.
    apply Value_closed_list, Forall_forall. intros x Hx.
    apply list_elem_of_fmap in Hx as ([x' b'] & -> & Hx).
    apply list_elem_of_lookup in Hx as [i Hi].
    destruct (Forall2_lookup_r _ _ _ _ _ Hall Hi) as (v & Hv & Hm).
    rewrite Forall_lookup in IH. by apply (IH i v Hv x' b').
  - apply Hasset.
  - apply Harchive.
  - rewrite MarshalPropertyValueWith_object.
    pose proof (MarshalPropertiesWith_spec
      (λ v, MarshalPropertyValueWith asset archive v opts) m opts) as H.
    destruct (MarshalPropertiesWith m opts _) as [[s unk]|q]; [|done].
    simpl. intros [= <- _]. destruct H as (_ & Hfld & _).
    apply Value_closed_struct. intros k x Hx. rewrite Hfld in Hx.
    destruct (m !! k) as [v|] eqn:Hv; [|done]. simpl in Hx.
    destruct (skipped opts v); [done|].
    destruct (MarshalPropertyValueWith asset archive v opts)
      as [[x' b']|] eqn:Hm; [|done].
    injection Hx as <-. by apply (IH k v Hv x' b').
  - simpl. destruct (IsComputed e); [done|]. simpl.
    destruct (MarshalPropertyValueWith asset archive e opts)
      as [[w' [|]]|q] eqn:He; simpl; [|done|done].
    intros [= <- _]. by apply (IH w' true).
  - simpl. destruct (IsComputed e); [done|]. simpl.
    destruct (MarshalPropertyValueWith asset archive e opts)
      as [[w' [|]]|q] eqn:He; simpl; [|done|done].
    intros [= <- _]. by apply (IH w' true).
Qed.

Lemma MarshalPropertyValue_closed v opts w b :
  MarshalPropertyValue v opts = Ok (w, b) → Value_closed w = true.
Proof.
  apply (MarshalPropertyValueWith_closed MarshalAsset MarshalArchive opts);
    intros a; apply MarshalPropertyValueWith_closed; done.
Qed.

(** X4.  Whatever [MarshalPropertyValue] returns is a wire value of the
    closed kind set, with no nil value and no value without a kind inside;
    so unmarshaling it, under any options, returns a property value and
    never aborts. *)
Theorem marshaled_value_decodes (v : PropertyValue) (opts opts' : MarshalOptions)
    (w : Value) (known : bool) :
  MarshalPropertyValue v opts = Ok (w, known) →
  Value_closed w = true ∧ is_Ok (UnmarshalPropertyValue w opts').
Proof.
  intros Hw. apply MarshalPropertyValue_closed in Hw.
  split; [done | by apply UnmarshalPropertyValue_total].
Qed.

(** *** The known flag *)

Lemma exposed_in_false m :
  exposed (NewObjectProperty m) = false →
  ∀ k v, m !! k = Some v → IsOutput v = false → exposed v = false.
Proof.
  intros Hm k v Hv Hout. destruct (exposed v) eqn:Hexp; [|done].
  assert (exposed (NewObjectProperty m) = true) as H; [|congruence].
  apply exposed_object. by exists k, v.
Qed.

Lemma MarshalPropertyValueWith_unexposed asset archive opts :
  (∀ a w b, asset a opts = Ok (w, b) → b = true) →
  (∀ a w b, archive a opts = Ok (w, b) → b = true) →
  ∀ v w b, exposed v = false →
           MarshalPropertyValueWith asset archive v opts = Ok (w, b) → b = true.
Proof.
  intros Hasset Harchive v.
  induction v as [| | | |l IH| | |m IH|e IH|e IH] using PropertyValue_induction;
    intros w known Hexp; try done; try (by intros [= _ <-]).
  - simpl.
    pose proof (marshalElems_spec
      (λ elem, MarshalPropertyValueWith asset archive elem opts) l true [])
      as H.
    destruct (marshalElems _ l true []) as [[elems outcome]|q]; [|done].
    simpl. intros [= _ <-]. destruct H as (wbs & Hall & _ & ->). simpl.
    apply forallb_Forall, Forall_forall. intros x Hx.
    apply list_elem_of_fmap in Hx as ([w' x'] & -> & Hx).
    apply list_elem_of_lookup in Hx as [i Hi].
    destruct (Forall2_lookup_r _ _ _ _ _ Hall Hi) as (v & Hv & Hm).
    rewrite Forall_lookup in IH. apply (IH i v Hv w' x'); [|done].
    simpl in Hexp. destruct (exposed v) eqn:Hev; [|done].
    assert (existsb exposed l = true) as Hl; [|congruence].
    apply existsb_exists. exists v. split; [|done].
    apply list_elem_of_In, list_elem_of_lookup. by exists i.
  - by apply Hasset.
  - by apply Harchive.
  - rewrite MarshalPropertyValueWith_object.
    pose proof (MarshalPropertiesWith_spec
      (λ v, MarshalPropertyValueWith asset archive v opts) m opts) as H.
    destruct (MarshalPropertiesWith m opts _) as [[s unk]|q]; [|done].
    simpl. intros [= _ <-]. destruct H as (_ & _ & _ & Hnil).
    assert (unk = None) as ->; [|done].
    apply Hnil. intros k v w' b' Hv Hs Hm.
    apply (IH k v Hv w' b'); [|done].
    apply (exposed_in_false m Hexp k v Hv).
    unfold skipped in Hs. by apply orb_false_iff in Hs as [? _].
Qed.

Lemma MarshalPropertyValue_unexposed v opts w b :
  exposed v = false → MarshalPropertyValue v opts = Ok (w, b) → b = true.
Proof.
  apply (MarshalPropertyValueWith_unexposed MarshalAsset MarshalArchive opts).
  - intros a w' b' H. destruct (MarshalAsset_known a opts) as [? ?]. congruence.
  - intros a w' b' H. destruct (MarshalArchive_known a opts) as [? ?].
    congruence.
Qed.

(** X5.  The known flag that [MarshalPropertyValue] returns is false exactly
    when marshaling has met a computed or output value: the value itself, an
    element of an array, or the value of an object key that is not skipped
    as an output. *)
Theorem known_flag_meaning (v : PropertyValue) (opts : MarshalOptions)
    (w : Value) (known : bool) :
  MarshalPropertyValue v opts = Ok (w, known) → known = negb (exposed v).
Proof.
  intros Hw. destruct (exposed v) eqn:Hexp; simpl.
  - destruct known; [|done].
    by apply (MarshalPropertyValue_exposed opts v Hexp) in Hw.
  - by apply (MarshalPropertyValue_unexposed v opts w).
Qed.

(** X6.  The side map of [MarshalPropertiesWithUnknowns] is nil or holds a
    key (it is never an empty map); each of its keys is a field of the wire
    struct, where the placeholder stands; and the fields of the wire struct
    are exactly the keys of the property map that are not skipped. *)
Theorem unknown_keys_invariant (props : PropertyMap) (opts : MarshalOptions)
    (s : Struct) (unk : option (gset string)) :
  MarshalPropertiesWithUnknowns props opts = Ok (s, unk) →
  unk ≠ Some ∅ ∧
  (∀ k, k ∈ unk_keys unk → is_Some (s !! k)) ∧
  (∀ k, is_Some (s !! k) ↔
        ∃ v, props !! k = Some v ∧ skipped opts v = false).
Proof.
  intros Hm. pose proof (MarshalPropertiesWithUnknowns_spec props opts) as H.
  rewrite Hm in H. destruct H as (Hok & Hfld & Hunk & Hnil).
  assert (∀ k, is_Some (s !! k) ↔
               ∃ v, props !! k = Some v ∧ skipped opts v = false) as Hdom.
  { intros k. rewrite Hfld. destruct (props !! k) as [v|] eqn:Hv; simpl.
    - destruct (skipped opts v) eqn:Hs.
      + split; [by intros [? ?] | intros (? & [= <-] & ?); congruence].
      + destruct (Hok k v Hv Hs) as [[w b] Hw]. rewrite Hw. simpl.
        split; [by exists v | by eexists].
    - split; [by intros [? ?] | by intros (? & ? & ?)]. }
  split_and!; [| |exact Hdom].
  - intros ->. assert (Some (∅ : gset string) = None) as H; [|done].
    apply Hnil. intros k v w b Hv Hs Hw. destruct b; [done|].
    exfalso. apply (not_elem_of_empty (C:=gset string) k).
    apply (Hunk k). by exists v, w.
  - intros k (v & w & Hv & Hs & _)%Hunk. apply Hdom. by exists v.
Qed.

(** *** Arrays and lists *)

(** X7.  Arrays and lists are converted position by position: the wire list
    of a marshaled array holds, in order, the marshaled elements, and the
    known flag is the conjunction of theirs; the array decoded from a wire
    list holds, in order, the decoded elements.  In both directions the
    length is kept. *)
Theorem arrays_by_position (opts : MarshalOptions) :
  (∀ vs w known,
     MarshalPropertyValue (NewArrayProperty vs) opts = Ok (w, known) →
     ∃ wbs, Forall2 (λ v wb, MarshalPropertyValue v opts = Ok wb) vs wbs ∧
            w = Value_ListValue wbs.*1 ∧ known = forallb id wbs.*2) ∧
  (∀ values pv,
     UnmarshalPropertyValue (Value_ListValue values) opts = Ok pv →
     ∃ pvs, Forall2 (λ x e, UnmarshalPropertyValue x opts = Ok e) values pvs ∧
            pv = NewArrayProperty pvs).
Proof.
  split.
  - intros vs w known. rewrite MarshalPropertyValue_array.
    pose proof (marshalElems_spec
      (λ elem, MarshalPropertyValue elem opts) vs true []) as H.
    destruct (marshalElems _ vs true []) as [[elems outcome]|q]; [|done].
    simpl. intros [= <- <-]. destruct H as (wbs & Hall & -> & ->).
    by exists wbs.
  - intros values pv Hpv.
    pose proof (UnmarshalPropertyValue_list values opts) as H.
    by rewrite Hpv in H.
Qed.

(** *** Round trips of maps, assets and archives *)

Lemma known_not_skipped opts v w :
  SkipNulls opts = false → MarshalPropertyValue v opts = Ok (w, true) →
  skipped opts v = false ∧ IsComputed v = false.
Proof.
  intros Hskip Hw. unfold skipped. rewrite Hskip. simpl.
  destruct v; try done; exfalso; revert Hw;
    by apply MarshalPropertyValue_exposed.
Qed.

(** A map whose values all come back from the wire comes back itself. *)
Lemma properties_inverse props opts :
  SkipNulls opts = false →
  (∀ k x, props !! k = Some x →
          ∃ w, MarshalPropertyValue x opts = Ok (w, true) ∧
               UnmarshalPropertyValue w opts = Ok x) →
  ∃ s, MarshalPropertiesWithUnknowns props opts = Ok (s, None) ∧
       UnmarshalProperties (Some s) opts = Ok props.
Proof.
  intros Hskip Hall.
  pose proof (MarshalPropertiesWithUnknowns_spec props opts) as H.
  destruct (MarshalPropertiesWithUnknowns props opts) as [[s unk]|p].
  2:{ destruct H as (k & x & Hx & _ & Hpanic).
      destruct (Hall k x Hx) as (w & Hw & _). congruence. }
  destruct H as (_ & Hfld & _ & Hnil).
  assert (unk = None) as ->.
  { apply Hnil. intros k x w b Hx _ Hm.
    destruct (Hall k x Hx) as (w' & Hw' & _). congruence. }
  exists s. split; [done|].
  assert (∀ k, s !! k = x ← props !! k;
                          fst <$> ok (MarshalPropertyValue x opts)) as Hs.
  { intros k. rewrite Hfld. destruct (props !! k) as [x|] eqn:Hx; [|done].
    simpl. destruct (Hall k x Hx) as (w & Hw & _).
    by destruct (known_not_skipped opts x w Hskip Hw) as [-> _]. }
  pose proof (UnmarshalProperties_spec (Some s) opts) as H. simpl in H.
  destruct (UnmarshalProperties (Some s) opts) as [obj|p].
  - destruct H as [_ Hobj]. f_equal. apply map_eq. intros k.
    rewrite Hobj, Hs. destruct (props !! k) as [x|] eqn:Hx; [|done]. simpl.
    destruct (Hall k x Hx) as (w & Hw & Hu). rewrite Hw. simpl.
    by rewrite Hu, Hskip.
  - exfalso. destruct H as (k & w & Hw & H).
    rewrite Hs in Hw. destruct (props !! k) as [x|] eqn:Hx; [|done].
    simpl in Hw. destruct (Hall k x Hx) as (w' & Hw' & Hu).
    rewrite Hw' in Hw. injection Hw as <-.
    destruct H as [H|(pv & Hpv & Hc & _)]; [congruence|].
    rewrite Hu in Hpv. injection Hpv as <-.
    destruct (known_not_skipped opts x w' Hskip Hw') as [_ Hx']. congruence.
Qed.

Lemma plain_inverse v opts :
  SkipNulls opts = false → only_plain v = true → not_sniffed v = true →
  ∃ w, MarshalPropertyValue v opts = Ok (w, true) ∧
       UnmarshalPropertyValue w opts = Ok v.
Proof.
  intros Hskip.
  induction v as [| | | |l IH| | |m IH|e _|e _] using PropertyValue_induction;
    intros Hp Hn; try done; try (by eexists).
  - apply only_plain_array in Hp. apply not_sniffed_array in Hn.
    assert (Forall (λ x, ∃ w, MarshalPropertyValue x opts = Ok (w, true) ∧
                              UnmarshalPropertyValue w opts = Ok x) l) as Hall.
    { apply Forall_forall. intros x Hx.
      rewrite Forall_forall in IH, Hp, Hn.
      apply (IH x Hx); [by apply Hp | by apply Hn]. }
    apply Forall2_total in Hall as [ws Hws].
    assert (Forall2 (λ x w, MarshalPropertyValue x opts = Ok (w, true)) l ws)
      as Hm.
    { eapply Forall2_impl; [exact Hws|]. by intros x w [? _]. }
    assert (Forall2 (λ x w, UnmarshalPropertyValue w opts = Ok x) l ws) as Hu.
    { eapply Forall2_impl; [exact Hws|]. by intros x w [_ ?]. }
    exists (Value_ListValue ws). split.
    + rewrite MarshalPropertyValue_array.
      by rewrite (marshalElems_inverse
                    (λ elem, MarshalPropertyValue elem opts) l ws Hm).
    + pose proof (unmarshalElems_inverse
                    (λ elem, UnmarshalPropertyValue elem opts) l ws Hu []) as E.
      simpl in E |- *. by rewrite E.
  - apply only_plain_object in Hp.
    apply not_sniffed_object in Hn as (Hn1 & Hn2 & Hn3).
    destruct (properties_inverse m opts Hskip) as (s & Hs & Hu).
    { intros k x Hx. by apply (IH k x Hx); [apply (Hp k) | apply (Hn3 k)]. }
    exists (MarshalStruct s opts). split.
    + by rewrite MarshalPropertyValue_object, Hs.
    + unfold MarshalStruct. rewrite UnmarshalPropertyValue_struct, Hu. simpl.
      by rewrite Hn1, Hn2.
Qed.

(** X8.  Under options that do not skip nulls, a property map whose values
    are built from null, bool, number, string, array and object only, and
    hold no object that a recognizer accepts, passes [MarshalProperties],
    and [UnmarshalProperties] returns it from the wire struct: the map
    itself is not sniffed, only the structs inside it are. *)
Theorem properties_there_and_back (props : PropertyMap) (opts : MarshalOptions) :
  SkipNulls opts = false →
  (∀ k x, props !! k = Some x → only_plain x = true ∧ not_sniffed x = true) →
  ∃ s, MarshalProperties props opts = Ok s ∧
       UnmarshalProperties (Some s) opts = Ok props.
Proof.
  intros Hskip Hall.
  destruct (properties_inverse props opts Hskip) as (s & Hs & Hu).
  { intros k x Hx. destruct (Hall k x Hx) as [Hp Hn].
    by apply plain_inverse. }
  exists s. split; [|done]. unfold MarshalProperties. by rewrite Hs.
Qed.

Lemma serialized_inverse sera opts :
  SkipNulls opts = false →
  (∀ k x, NewPropertyMapFromMap sera !! k = Some x → not_sniffed x = true) →
  ∃ s, marshalSerialized (NewPropertyMapFromMap sera) opts =
         Ok (Value_StructValue (Some s), true) ∧
       UnmarshalProperties (Some s) opts = Ok (NewPropertyMapFromMap sera).
Proof.
  intros Hskip Hn.
  destruct (properties_inverse (NewPropertyMapFromMap sera) opts Hskip)
    as (s & Hs & Hu).
  { intros k x Hx. apply plain_inverse; [done | | by apply (Hn k)].
    pose proof (only_plain_NewPropertyValue (plain_map sera)) as Hp.
    apply only_plain_object in Hp. by apply (Hp k). }
  exists s. split; [|done].
  by rewrite marshalSerialized_eq, MarshalPropertyValue_object, Hs.
Qed.

(** X9.  Fidelity of assets and archives, under options that do not skip
    nulls.  When the asset recognizer accepts the serialized form of an
    asset as that asset, and accepts none of the objects inside it, the
    asset marshals as known and unmarshaling its wire form returns the
    asset.  The same holds of an archive whose serialized form the asset
    recognizer rejects and the archive recognizer accepts as that archive. *)
Theorem asset_archive_fidelity (opts : MarshalOptions) :
  SkipNulls opts = false →
  (∀ a, let serap := NewPropertyMapFromMap (Asset_Serialize a) in
     (∀ k x, serap !! k = Some x → not_sniffed x = true) →
     DeserializeAsset serap = Some a →
     ∃ w, MarshalPropertyValue (NewAssetProperty a) opts = Ok (w, true) ∧
          UnmarshalPropertyValue w opts = Ok (NewAssetProperty a)) ∧
  (∀ a, let serap := NewPropertyMapFromMap (Archive_Serialize a) in
     (∀ k x, serap !! k = Some x → not_sniffed x = true) →
     DeserializeAsset serap = None → DeserializeArchive serap = Some a →
     ∃ w, MarshalPropertyValue (NewArchiveProperty a) opts = Ok (w, true) ∧
          UnmarshalPropertyValue w opts = Ok (NewArchiveProperty a)).
Proof.
  intros Hskip. split.
  - intros a serap Hn Ha.
    destruct (serialized_inverse (Asset_Serialize a) opts Hskip Hn)
      as (s & Hs & Hu).
    exists (Value_StructValue (Some s)). split; [exact Hs|].
    rewrite UnmarshalPropertyValue_struct, Hu. simpl.
    fold serap. by rewrite Ha.
  - intros a serap Hn Ha Hr.
    destruct (serialized_inverse (Archive_Serialize a) opts Hskip Hn)
      as (s & Hs & Hu).
    exists (Value_StructValue (Some s)). split; [exact Hs|].
    rewrite UnmarshalPropertyValue_struct, Hu. simpl.
    fold serap. by rewrite Ha, Hr.
Qed.

(** *** The keys of a decoded map *)

(** X10.  A nil wire struct decodes to the empty map.  The entries of a map
    decoded by [UnmarshalProperties] are the decoded fields of the wire
    struct, under their own keys: no key is added, every field decodes, and
    the only fields left out are those that decode to null when [SkipNulls]
    is set. *)
Theorem decoded_entries (opts : MarshalOptions) :
  UnmarshalProperties None opts = Ok ∅ ∧
  (∀ props obj, UnmarshalProperties props opts = Ok obj →
     (∀ k w, default ∅ props !! k = Some w →
             is_Ok (UnmarshalPropertyValue w opts)) ∧
     (∀ k x, obj !! k = Some x ↔
             ∃ w, default ∅ props !! k = Some w ∧
                  UnmarshalPropertyValue w opts = Ok x ∧
                  (SkipNulls opts && IsNull x) = false)).
Proof.
  split; [done|]. intros props obj Hobj.
  pose proof (UnmarshalProperties_spec props opts) as H. simpl in H.
  rewrite Hobj in H. destruct H as [Hok Hfld]. split.
  - intros k w Hw. destruct (Hok k w Hw) as (x & Hx & _). by exists x.
  - intros k x. rewrite Hfld.
    destruct (default ∅ props !! k) as [w|] eqn:Hw; simpl.
    + destruct (Hok k w Hw) as (x' & Hx' & _). rewrite Hx'.
      destruct (SkipNulls opts && IsNull x') eqn:Hs.
      * split; [done|]. intros (w' & [= <-] & Hx & Hs'). congruence.
      * split.
        -- intros [= <-]. by exists w.
        -- intros (w' & [= <-] & Hx & _). congruence.
    + split; [done | by intros (w' & ? & _)].
Qed.

(** *** Which abort is reported *)

(** X11.  The keys are visited in sorted order, so that an abort is the same
    from run to run: when [UnmarshalProperties] aborts, it reports the abort
    of the least key, in the order of the strings, whose field does not
    decode; the fields of all the keys below it decode.  Likewise
    [MarshalPropertiesWithUnknowns] reports the abort of the least key that
    is not skipped and whose value does not marshal. *)
Theorem abort_of_least_key (opts : MarshalOptions) :
  (∀ fields p, UnmarshalProperties (Some fields) opts = Panic p →
     ∃ k w, fields !! k = Some w ∧
            UnmarshalPropertyValue w opts = Panic p ∧
            ∀ k' w', fields !! k' = Some w' → string_le k' k → k' ≠ k →
                     is_Ok (UnmarshalPropertyValue w' opts)) ∧
  (∀ props p, MarshalPropertiesWithUnknowns props opts = Panic p →
     ∃ k v, props !! k = Some v ∧ skipped opts v = false ∧
            MarshalPropertyValue v opts = Panic p ∧
            ∀ k' v', props !! k' = Some v' → string_le k' k → k' ≠ k →
                     skipped opts v' = true ∨
                     is_Ok (MarshalPropertyValue v' opts)).
Proof.
  split.
  - intros fields p Hp.
    apply forKeys_Panic_split in Hp as (ks1 & k & ks2 & st1 & Hks & H1 & H2).
    pose proof (unmarshal_loop_spec opts
      (λ key, UnmarshalPropertyValue (default ∅ (Some fields) !!! key) opts)
      ks1 ∅) as Hspec.
    rewrite H1 in Hspec. destruct Hspec as [Hok _].
    assert (k ∈ StableKeys fields) as Hk.
    { rewrite Hks. apply elem_of_app. right. by left. }
    apply elem_of_StableKeys in Hk as [w Hw].
    exists k, w. split; [done|]. split.
    + apply unmarshalField_Panic in H2. simpl in H2.
      rewrite (lookup_total_correct _ _ _ Hw) in H2.
      destruct H2 as [H2|(pv & Hpv & Hc & _)]; [done|].
      apply UnmarshalPropertyValue_not_computed in Hpv as [Hpv _]. congruence.
    + intros k' w' Hw' Hle Hne.
      assert (k' ∈ ks1) as Hk'.
      { apply (StableKeys_before fields ks1 k ks2 k' Hks); [|done|done].
        apply elem_of_StableKeys. by eexists. }
      destruct (Hok k' Hk') as (x & Hx & _). simpl in Hx.
      rewrite (lookup_total_correct _ _ _ Hw') in Hx. by exists x.
  - intros props p Hp.
    apply forKeys_Panic_split in Hp as (ks1 & k & ks2 & st1 & Hks & H1 & H2).
    pose proof (marshal_loop_spec opts props
      (λ key, MarshalPropertyValue (props !!! key) opts) ks1 (∅, None))
      as Hspec.
    rewrite H1 in Hspec. destruct Hspec as (Hok & _).
    assert (k ∈ StableKeys props) as Hk.
    { rewrite Hks. apply elem_of_app. right. by left. }
    apply elem_of_StableKeys in Hk as [v Hv].
    rewrite marshalProperty_eq, (lookup_total_correct _ _ _ Hv) in H2.
    destruct (skipped opts v) eqn:Hs; [done|].
    apply bind_Panic_inv in H2 as [H2|([w b] & _ & H2)]; [|done].
    exists k, v. split_and!; [done | done | done |].
    intros k' v' Hv' Hle Hne.
    assert (k' ∈ ks1) as Hk'.
    { apply (StableKeys_before props ks1 k ks2 k' Hks); [|done|done].
      apply elem_of_StableKeys. by eexists. }
    specialize (Hok k' Hk'). rewrite (lookup_total_correct _ _ _ Hv') in Hok.
    destruct (skipped opts v'); [by left | right; by apply Hok].
Qed.

(** *** When the strict marshal succeeds *)

Lemma MarshalPropertyValueWith_unexposed_total asset archive opts :
  (∀ a, is_Ok (asset a opts)) → (∀ a, is_Ok (archive a opts)) →
  ∀ v, exposed v = false →
       is_Ok (MarshalPropertyValueWith asset archive v opts).
Proof.
  intros Hasset Harchive v.
  induction v as [| | | |l IH| | |m IH|e IH|e IH] using PropertyValue_induction;
    intros Hexp; try done; try (by eexists).
  - simpl.
    pose proof (marshalElems_spec
      (λ elem, MarshalPropertyValueWith asset archive elem opts) l true [])
      as H.
    destruct (marshalElems _ l true []) as [[elems outcome]|q];
      [by eexists|].
    destruct H as (x & Hx & Hp). rewrite Forall_forall in IH.
    destruct (IH x Hx) as [r Hr]; [|congruence].
    simpl in Hexp. destruct (exposed x) eqn:Hex; [|done].
    assert (existsb exposed l = true) as Hl; [|congruence].
    apply existsb_exists. exists x. split; [|done]. by apply list_elem_of_In.
  - apply Hasset.
  - apply Harchive.
  - rewrite MarshalPropertyValueWith_object.
    pose proof (MarshalPropertiesWith_spec
      (λ v, MarshalPropertyValueWith asset archive v opts) m opts) as H.
    destruct (MarshalPropertiesWith m opts _) as [[s unk]|q]; [by eexists|].
    destruct H as (k & x & Hx & Hs & Hp).
    destruct (IH k x Hx) as [r Hr]; [|congruence].
    apply (exposed_in_false m Hexp k x Hx).
    unfold skipped in Hs. by apply orb_false_iff in Hs as [? _].
Qed.

Lemma MarshalPropertyValue_unexposed_total v opts :
  exposed v = false → ∃ w, MarshalPropertyValue v opts = Ok (w, true).
Proof.
  intros Hexp.
  destruct (MarshalPropertyValueWith_unexposed_total
              MarshalAsset MarshalArchive opts) with (v := v)
    as [[w b] Hw]; [| |done|].
  - intros a. destruct (MarshalAsset_known a opts) as [w Hw]. by eexists.
  - intros a. destruct (MarshalArchive_known a opts) as [w Hw]. by eexists.
  - exists w. fold (MarshalPropertyValue v opts) in Hw.
    by rewrite (MarshalPropertyValue_unexposed v opts w b Hexp Hw) in Hw.
Qed.

(** X12.  [MarshalProperties] returns a wire struct exactly on the property
    maps in which marshaling meets no computed and no output value: a
    computed or output value under a key that holds an output value does no
    harm, any other one makes it abort.  On a single value,
    [MarshalPropertyValue] returns with the known flag true whenever it
    meets none. *)
Theorem strict_marshal_succeeds_iff (opts : MarshalOptions) :
  (∀ v, exposed v = false → ∃ w, MarshalPropertyValue v opts = Ok (w, true)) ∧
  (∀ props, is_Ok (MarshalProperties props opts) ↔ ¬ exposed_in props).
Proof.
  split; [intros v; apply MarshalPropertyValue_unexposed_total|].
  intros props. split.
  - intros [s Hs] Hexp. unfold MarshalProperties in Hs.
    destruct (MarshalPropertiesWithUnknowns props opts) as [[s' unk]|p] eqn:H;
      [|done].
    destruct unk as [U|]; [done|].
    revert H. apply MarshalPropertiesWithUnknowns_exposed; [|done].
    intros k v _. apply MarshalPropertyValue_exposed.
  - intros Hexp.
    assert (∀ k v, props !! k = Some v → skipped opts v = false →
                   ∃ w, MarshalPropertyValue v opts = Ok (w, true)) as Hall.
    { intros k v Hv Hs. apply MarshalPropertyValue_unexposed_total.
      destruct (exposed v) eqn:Hev; [|done].
      destruct Hexp. exists k, v. split_and!; [done | | done].
      unfold skipped in Hs. by apply orb_false_iff in Hs as [? _]. }
    pose proof (MarshalPropertiesWithUnknowns_spec props opts) as H.
    unfold MarshalProperties.
    destruct (MarshalPropertiesWithUnknowns props opts) as [[s unk]|p].
    + destruct H as (_ & _ & _ & Hnil).
      assert (unk = None) as ->; [|by exists s].
      apply Hnil. intros k v w b Hv Hs Hw.
      destruct (Hall k v Hv Hs) as [w' Hw']. congruence.
    + destruct H as (k & v & Hv & Hs & Hp).
      destruct (Hall k v Hv Hs) as [w' Hw']. congruence.
Qed.

(** *** The round trip under [SkipNulls] *)

(** The value without the keys of its objects, at any depth, that hold a
    null; the nulls of arrays stay. *)
Fixpoint without_nulls (v : PropertyValue) : PropertyValue :=
  match v with
  | NewArrayProperty l => NewArrayProperty (without_nulls <$> l)
  | NewObjectProperty m =>
      NewObjectProperty
        (omap (λ x, if IsNull x then None else Some (without_nulls x)) m)
  | _ => v
  end.

Lemma IsNull_without_nulls v : IsNull (without_nulls v) = IsNull v.
Proof. by destruct v. Qed.

Lemma known_not_output opts v w :
  MarshalPropertyValue v opts = Ok (w, true) →
  IsOutput v = false ∧ IsComputed v = false.
Proof.
  intros Hw. destruct v; try done; exfalso; revert Hw;
    by apply MarshalPropertyValue_exposed.
Qed.

Lemma properties_skip_inverse props opts :
  SkipNulls opts = true →
  (∀ k x, props !! k = Some x → IsNull x = false →
          ∃ w, MarshalPropertyValue x opts = Ok (w, true) ∧
               UnmarshalPropertyValue w opts = Ok (without_nulls x)) →
  ∃ s, MarshalPropertiesWithUnknowns props opts = Ok (s, None) ∧
       UnmarshalProperties (Some s) opts =
       Ok (omap (λ x, if IsNull x then None else Some (without_nulls x))
                props).
Proof.
  intros Hskip Hall.
  assert (∀ k x, props !! k = Some x →
                 skipped opts x = IsNull x) as Hskipped.
  { intros k x Hx. unfold skipped. rewrite Hskip. simpl.
    destruct (IsNull x) eqn:Hn; [apply orb_true_r|].
    destruct (Hall k x Hx Hn) as (w & Hw & _).
    destruct (known_not_output opts x w Hw) as [-> _]. done. }
  pose proof (MarshalPropertiesWithUnknowns_spec props opts) as H.
  destruct (MarshalPropertiesWithUnknowns props opts) as [[s unk]|p].
  2:{ destruct H as (k & x & Hx & Hs & Hpanic).
      rewrite (Hskipped k x Hx) in Hs.
      destruct (Hall k x Hx Hs) as (w & Hw & _). congruence. }
  destruct H as (_ & Hfld & _ & Hnil).
  assert (unk = None) as ->.
  { apply Hnil. intros k x w b Hx Hs Hm.
    rewrite (Hskipped k x Hx) in Hs.
    destruct (Hall k x Hx Hs) as (w' & Hw' & _). congruence. }
  exists s. split; [done|].
  pose proof (UnmarshalProperties_spec (Some s) opts) as H. simpl in H.
  destruct (UnmarshalProperties (Some s) opts) as [obj|p].
  - destruct H as [_ Hobj]. f_equal. apply map_eq. intros k.
    rewrite Hobj, Hfld, lookup_omap.
    destruct (props !! k) as [x|] eqn:Hx; [|done]. simpl.
    rewrite (Hskipped k x Hx). destruct (IsNull x) eqn:Hn; [done|].
    destruct (Hall k x Hx Hn) as (w & Hw & Hu). rewrite Hw. simpl.
    by rewrite Hu, IsNull_without_nulls, Hn, andb_false_r.
  - exfalso. destruct H as (k & w & Hw & H).
    rewrite Hfld in Hw. destruct (props !! k) as [x|] eqn:Hx; [|done].
    simpl in Hw. rewrite (Hskipped k x Hx) in Hw.
    destruct (IsNull x) eqn:Hn; [done|].
    destruct (Hall k x Hx Hn) as (w' & Hw' & Hu).
    rewrite Hw' in Hw. injection Hw as <-.
    destruct H as [H|(pv & Hpv & Hc & _)]; [congruence|].
    apply UnmarshalPropertyValue_not_computed in Hpv as [Hpv _]. congruence.
Qed.

(** X13.  Under options that skip nulls, a property value built from null,
    bool, number, string, array and object only marshals as known, and
    unmarshaling its wire form returns the value without the keys that hold
    a null, at every depth, provided no object of that result is accepted by
    a recognizer; the nulls inside arrays are kept. *)
Theorem skip_nulls_there_and_back (v : PropertyValue) (opts : MarshalOptions) :
  SkipNulls opts = true → only_plain v = true →
  not_sniffed (without_nulls v) = true →
  ∃ w, MarshalPropertyValue v opts = Ok (w, true) ∧
       UnmarshalPropertyValue w opts = Ok (without_nulls v).
Proof.
  intros Hskip.
  induction v as [| | | |l IH| | |m IH|e _|e _] using PropertyValue_induction;
    intros Hp Hn; try done; try (by eexists).
  - apply only_plain_array in Hp. cbn [without_nulls] in Hn.
    apply not_sniffed_array in Hn. rewrite Forall_fmap in Hn.
    assert (Forall (λ x, ∃ w, MarshalPropertyValue x opts = Ok (w, true) ∧
                              UnmarshalPropertyValue w opts =
                              Ok (without_nulls x)) l) as Hall.
    { apply Forall_forall. intros x Hx.
      rewrite Forall_forall in IH, Hp, Hn.
      apply (IH x Hx); [by apply Hp | by apply (Hn x)]. }
    apply Forall2_total in Hall as [ws Hws].
    assert (Forall2 (λ x w, MarshalPropertyValue x opts = Ok (w, true)) l ws)
      as Hm.
    { eapply Forall2_impl; [exact Hws|]. by intros x w [? _]. }
    assert (Forall2 (λ x w, UnmarshalPropertyValue w opts = Ok x)
                    (without_nulls <$> l) ws) as Hu.
    { apply Forall2_fmap_l.
      eapply Forall2_impl; [exact Hws|]. by intros x w [_ ?]. }
    exists (Value_ListValue ws). split.
    + rewrite MarshalPropertyValue_array.
      by rewrite (marshalElems_inverse
                    (λ elem, MarshalPropertyValue elem opts) l ws Hm).
    + pose proof (unmarshalElems_inverse
                    (λ elem, UnmarshalPropertyValue elem opts)
                    (without_nulls <$> l) ws Hu []) as E.
      simpl in E |- *. by rewrite E.
  - apply only_plain_object in Hp. cbn [without_nulls] in Hn.
    apply not_sniffed_object in Hn as (Hn1 & Hn2 & Hn3).
    destruct (properties_skip_inverse m opts Hskip) as (s & Hs & Hu).
    { intros k x Hx Hnull. apply (IH k x Hx); [by apply (Hp k)|].
      apply (Hn3 k). by rewrite lookup_omap, Hx; simpl; rewrite Hnull. }
    exists (MarshalStruct s opts). split.
    + by rewrite MarshalPropertyValue_object, Hs.
    + unfold MarshalStruct. rewrite UnmarshalPropertyValue_struct, Hu.
      cbn [without_nulls]. simpl. by rewrite Hn1, Hn2.
Qed.

(** ** The wire form of a property value *)

(** Reference definition, following the table of section 4.3 of the
    specification rather than the code, to compare [MarshalPropertyValue]
    with ([MarshalPropertyValue_wire_form]): the wire form of a property
    value, without the known flag and without the assertions.  A scalar is
    the matching scalar, an array the list of the wire forms of its
    elements, an object the struct of the wire forms of the values of its
    keys that are not skipped (section 4.1), and a computed or an output
    value has the wire form of its element, the placeholder.  The wire
    forms of assets and archives are left open here. *)
Fixpoint wire_form_with (asset : Asset → Value) (archive : Archive → Value)
    (opts : MarshalOptions) (v : PropertyValue) : Value :=
  match v with
  | NewNullProperty => Value_NullValue
  | NewBoolProperty b => Value_BoolValue b
  | NewNumberProperty n => Value_NumberValue n
  | NewStringProperty s => Value_StringValue s
  | NewArrayProperty l =>
      Value_ListValue (wire_form_with asset archive opts <$> l)
  | NewAssetProperty a => asset a
  | NewArchiveProperty a => archive a
  | NewObjectProperty m =>
      Value_StructValue
        (Some (omap (λ x, if skipped opts x then None
                          else Some (wire_form_with asset archive opts x)) m))
  | NewComputedProperty e | NewOutputProperty e =>
      wire_form_with asset archive opts e
  end.

(** The wire form of a serialized asset or archive (section 4.6): that of
    the object of its generic mapping, which holds neither assets nor
    archives. *)
Definition serialized_wire_form (opts : MarshalOptions)
    (sera : gmap string plain) : Value :=
  wire_form_with (λ _, Value_nil) (λ _, Value_nil) opts
    (NewObjectProperty (NewPropertyMapFromMap sera)).

Definition wire_form (opts : MarshalOptions) (v : PropertyValue) : Value :=
  wire_form_with (λ a, serialized_wire_form opts (Asset_Serialize a))
                 (λ a, serialized_wire_form opts (Archive_Serialize a))
                 opts v.

(** The wire struct of a property map: the wire forms of the values of its
    keys that are not skipped. *)
Definition wire_fields (opts : MarshalOptions) (props : PropertyMap) : Struct :=
  omap (λ x, if skipped opts x then None else Some (wire_form opts x)) props.

Lemma MarshalPropertiesWith_fields (f : PropertyValue → result (Value * bool))
    (g : PropertyValue → Value) props opts s unk :
  MarshalPropertiesWith props opts (λ key, f (props !!! key)) = Ok (s, unk) →
  (∀ k v w b, props !! k = Some v → f v = Ok (w, b) → w = g v) →
  s = omap (λ x, if skipped opts x then None else Some (g x)) props.
Proof.
  intros Hm Hg. pose proof (MarshalPropertiesWith_spec f props opts) as H.
  rewrite Hm in H. destruct H as (Hok & Hfld & _).
  apply map_eq. intros k. rewrite Hfld, lookup_omap.
  destruct (props !! k) as [v|] eqn:Hv; [|done]. simpl.
  destruct (skipped opts v) eqn:Hs; [done|].
  destruct (Hok k v Hv Hs) as [[w b] Hw]. rewrite Hw. simpl.
  by rewrite (Hg k v w b Hv Hw).
Qed.

Lemma Forall2_fmap_eq {A B : Type} (f : A → result (B * bool)) (g : A → B)
    (l : list A) (wbs : list (B * bool)) :
  Forall2 (λ v wb, f v = Ok wb) l wbs →
  Forall (λ v, ∀ w b, f v = Ok (w, b) → w = g v) l →
  wbs.*1 = g <$> l.
Proof.
  induction 1 as [|v [w b] l wbs Hv _ IH]; [done|].
  intros [Hg Hall]%Forall_cons. simpl. f_equal; [by apply (Hg w b) | by apply IH].
Qed.

Lemma MarshalPropertyValueWith_wire_form asset archive wasset warchive opts :
  (∀ a w b, asset a opts = Ok (w, b) → w = wasset a) →
  (∀ a w b, archive a opts = Ok (w, b) → w = warchive a) →
  ∀ v w known, MarshalPropertyValueWith asset archive v opts = Ok (w, known) →
               w = wire_form_with wasset warchive opts v.
Proof.
  intros Hasset Harchive v.
  induction v as [| | | |l IH| | |m IH|e IH|e IH] using PropertyValue_induction;
    intros w known; try (by intros [= <- _]).
  - simpl.
    pose proof (marshalElems_spec
      (λ elem, MarshalPropertyValueWith asset archive elem opts) l true [])
      as H.
    destruct (marshalElems _ l true []) as [[elems outcome]|q]; [|done].
    simpl. intros [= <- _]. destruct H as (wbs & Hall & -> & _). simpl.
    f_equal. apply (Forall2_fmap_eq _ _ _ _ Hall).
    eapply Forall_impl; [exact IH|]. intros x Hx w' b'. apply Hx.
  - apply Hasset.
  - apply Harchive.
  - rewrite MarshalPropertyValueWith_object.
    destruct (MarshalPropertiesWith m opts
                (λ key, MarshalPropertyValueWith asset archive (m !!! key) opts))
      as [[s unk]|q] eqn:Hm; [|done].
    simpl. intros [= <- _]. unfold MarshalStruct. do 2 f_equal.
    apply (MarshalPropertiesWith_fields
             (λ x, MarshalPropertyValueWith asset archive x opts)
             (wire_form_with wasset warchive opts) _ _ _ _ Hm).
    intros k v w' b' Hv. by apply (IH k v Hv).
  - simpl. destruct (IsComputed e); [done|]. simpl.
    destruct (MarshalPropertyValueWith asset archive e opts)
      as [[w' [|]]|q] eqn:He; simpl; [|done|done].
    intros [= <- _]. by apply (IH w' true).
  - simpl. destruct (IsComputed e); [done|]. simpl.
    destruct (MarshalPropertyValueWith asset archive e opts)
      as [[w' [|]]|q] eqn:He; simpl; [|done|done].
    intros [= <- _]. by apply (IH w' true).
Qed.

Lemma marshalSerialized_wire_form sera opts w known :
  marshalSerialized (NewPropertyMapFromMap sera) opts = Ok (w, known) →
  w = serialized_wire_form opts sera.
Proof.
  unfold marshalSerialized, serialized_wire_form.
  by apply MarshalPropertyValueWith_wire_form.
Qed.

(** Whatever [MarshalPropertyValue] returns is the wire form of the value. *)
Lemma MarshalPropertyValue_wire_form v opts w known :
  MarshalPropertyValue v opts = Ok (w, known) → w = wire_form opts v.
Proof.
  apply MarshalPropertyValueWith_wire_form;
    intros a w' b'; apply marshalSerialized_wire_form.
Qed.

Lemma MarshalPropertiesWithUnknowns_wire_fields props opts s unk :
  MarshalPropertiesWithUnknowns props opts = Ok (s, unk) →
  s = wire_fields opts props.
Proof.
  intros Hm.
  apply (MarshalPropertiesWith_fields
           (λ v, MarshalPropertyValue v opts) (wire_form opts) _ _ _ _ Hm).
  intros k v w b _. apply MarshalPropertyValue_wire_form.
Qed.

Lemma fully_known_unexposed (v : PropertyValue) :
  fully_known v = true → exposed v = false.
Proof.
  induction v as [| | | |l IH| | |m IH|e _|e _] using PropertyValue_induction;
    intros Hv; try done.
  - apply fully_known_array in Hv. destruct (exposed _) eqn:Hexp; [|done].
    simpl in Hexp. apply existsb_exists in Hexp as (x & Hx & Hexp).
    apply list_elem_of_In in Hx. rewrite Forall_forall in IH, Hv.
    rewrite (IH x Hx (Hv x Hx)) in Hexp. done.
  - apply fully_known_object in Hv. destruct (exposed _) eqn:Hexp; [|done].
    apply exposed_object in Hexp as (k & x & Hx & _ & Hexp).
    rewrite (IH k x Hx (Hv k x Hx)) in Hexp. done.
Qed.

Lemma unexposed_not_computed (v : PropertyValue) :
  exposed v = false → IsComputed v = false.
Proof. by destruct v. Qed.

Lemma exposed_placeholder_aborts e opts :
  exposed e = true → is_Panic (MarshalPropertyValue (NewComputedProperty e) opts).
Proof.
  intros Hexp. rewrite MarshalPropertyValue_computed_cases. unfold placeholder.
  destruct (IsComputed e); [by eexists|].
  destruct (MarshalPropertyValue e opts) as [[w [|]]|p] eqn:He;
    [|by eexists|by eexists].
  by apply (MarshalPropertyValue_exposed opts e Hexp) in He.
Qed.

(** C3, as amended (unknown propagation).  Let the key [k] of a property
    map hold a computed value with the element [e].  When marshaling meets
    no computed and no output value in [e] (a fully known element, say),
    the element marshals to its wire form, which is the field [k] of the
    wire struct of the map; and when moreover every other value of the map
    is an output value or one in which marshaling meets no computed and no
    output value, [MarshalPropertiesWithUnknowns] returns the wire struct of
    the map and the unknown set that holds exactly [k].  When marshaling
    does meet a computed or output value in [e] (the element is an output
    value, say), marshaling the map aborts.  And when all the values of a
    map are fully known, it returns the wire struct of the map and the nil
    unknown set. *)
Theorem unknown_propagation (props : PropertyMap) (opts : MarshalOptions) :
  (∀ k e, props !! k = Some (NewComputedProperty e) →
     (exposed e = false →
      MarshalPropertyValue e opts = Ok (wire_form opts e, true) ∧
      wire_fields opts props !! k = Some (wire_form opts e) ∧
      ((∀ k' v, k' ≠ k → props !! k' = Some v →
                IsOutput v = true ∨ exposed v = false) →
       MarshalPropertiesWithUnknowns props opts =
         Ok (wire_fields opts props, Some {[k]}))) ∧
     (exposed e = true →
      is_Panic (MarshalPropertiesWithUnknowns props opts))) ∧
  ((∀ k v, props !! k = Some v → fully_known v = true) →
   MarshalPropertiesWithUnknowns props opts =
     Ok (wire_fields opts props, None)).
Proof.
  pose proof (MarshalPropertiesWithUnknowns_spec props opts) as H. split.
  - intros k e Hk. split.
    + intros He.
      destruct (MarshalPropertyValue_unexposed_total e opts He) as [w Hw].
      pose proof (MarshalPropertyValue_wire_form e opts w true Hw) as ->.
      split_and!; [done| |].
      { unfold wire_fields. rewrite lookup_omap, Hk. simpl.
        by rewrite skipped_computed. }
      intros Hothers.
      destruct (MarshalPropertyValue_placeholder e opts _
                  (unexposed_not_computed e He) Hw) as [Hc _].
      assert (∀ k' v, props !! k' = Some v → skipped opts v = false →
                      ∃ w' b, MarshalPropertyValue v opts = Ok (w', b) ∧
                              (b = false ↔ k' = k)) as Hall.
      { intros k' v Hv Hs. destruct (decide (k' = k)) as [->|Hne].
        - rewrite Hk in Hv. injection Hv as <-.
          by exists (wire_form opts e), false.
        - destruct (Hothers k' v Hne Hv) as [Hout|Hexp].
          { unfold skipped in Hs. by rewrite Hout in Hs. }
          destruct (MarshalPropertyValue_unexposed_total v opts Hexp)
            as [w' Hw'].
          exists w', true. split; [done|]. split; [done | by intros ->]. }
      destruct (MarshalPropertiesWithUnknowns props opts) as [[s unk]|p]
        eqn:Hm.
      * destruct H as (_ & _ & Hunk & _).
        rewrite (MarshalPropertiesWithUnknowns_wire_fields props opts s unk Hm).
        do 2 f_equal. destruct unk as [U|].
        -- f_equal. apply set_eq. intros x.
           specialize (Hunk x). simpl in Hunk.
           rewrite Hunk, elem_of_singleton. split.
           ++ intros (v & w' & Hv & Hs & Hm').
              destruct (Hall x v Hv Hs) as (w'' & b & Hm'' & Hb).
              apply Hb. congruence.
           ++ intros ->. exists (NewComputedProperty e), (wire_form opts e).
              split_and!; [done | apply skipped_computed | done].
        -- exfalso. apply (not_elem_of_empty (C:=gset string) k).
           apply (Hunk k). exists (NewComputedProperty e), (wire_form opts e).
           split_and!; [done | apply skipped_computed | done].
      * destruct H as (k' & v & Hv & Hs & Hp).
        destruct (Hall k' v Hv Hs) as (w' & b & Hm' & _). congruence.
    + intros He.
      destruct (exposed_placeholder_aborts e opts He) as [p Hp].
      destruct (MarshalPropertiesWithUnknowns props opts) as [[s unk]|q];
        [|by eexists].
      destruct H as (Hok & _).
      destruct (Hok k _ Hk (skipped_computed opts e)) as [r Hr]. congruence.
  - intros Hall.
    destruct (MarshalPropertiesWithUnknowns props opts) as [[s unk]|p] eqn:Hm.
    + destruct H as (_ & _ & _ & Hnil).
      rewrite (MarshalPropertiesWithUnknowns_wire_fields props opts s unk Hm).
      do 2 f_equal. apply Hnil. intros k v w b Hv _ Hw.
      destruct (MarshalPropertyValue_known v opts (Hall k v Hv)) as [w' Hw'].
      congruence.
    + destruct H as (k & v & Hv & _ & Hp).
      destruct (MarshalPropertyValue_known v opts (Hall k v Hv)) as [w' Hw'].
      congruence.
Qed.

(** ** Where marshaling aborts *)

(** X1.  An asset or an archive never makes marshaling abort, and neither
    does any value in which marshaling meets no computed and no output
    value: marshaling returns the wire form of the value, with the known
    flag set.  When marshaling
    does abort, it is at one of the two assertions of the placeholder
    branches: an abort of [MarshalPropertyValue] or of
    [MarshalPropertiesWithUnknowns] is the assertion that the element of a
    computed or output value is not computed, or the assertion that it is
    known; [MarshalProperties] may abort at its own assertion besides. *)
Theorem marshal_abort_sites (opts : MarshalOptions) :
  (∀ v p, MarshalPropertyValue v opts = Panic p →
          p = ElementIsComputed ∨ p = ElementNotKnown) ∧
  (∀ props p, MarshalPropertiesWithUnknowns props opts = Panic p →
              p = ElementIsComputed ∨ p = ElementNotKnown) ∧
  (∀ props p, MarshalProperties props opts = Panic p →
              p = ElementIsComputed ∨ p = ElementNotKnown ∨
              p = UnexpectedUnknowns) ∧
  (∀ a, MarshalAsset a opts = Ok (wire_form opts (NewAssetProperty a), true) ∧
        MarshalPropertyValue (NewAssetProperty a) opts = MarshalAsset a opts) ∧
  (∀ a, MarshalArchive a opts =
          Ok (wire_form opts (NewArchiveProperty a), true) ∧
        MarshalPropertyValue (NewArchiveProperty a) opts =
          MarshalArchive a opts) ∧
  (∀ v, exposed v = false →
        MarshalPropertyValue v opts = Ok (wire_form opts v, true)).
Proof.
  assert (∀ props p, MarshalPropertiesWithUnknowns props opts = Panic p →
                     placeholder_panic p) as Hmap.
  { intros props p Hp.
    pose proof (MarshalPropertiesWithUnknowns_spec props opts) as H.
    rewrite Hp in H. destruct H as (k & v & _ & _ & Hv).
    by apply MarshalPropertyValue_panic in Hv. }
  split_and!.
  - intros v p. apply MarshalPropertyValue_panic.
  - exact Hmap.
  - intros props p. unfold MarshalProperties.
    destruct (MarshalPropertiesWithUnknowns props opts) as [[s unk]|q] eqn:Hq;
      simpl.
    + destruct unk; simpl; [|done]. intros [= <-]. by right; right.
    + intros [= ->]. destruct (Hmap props p Hq); [by left | by right; left].
  - intros a. destruct (MarshalAsset_known a opts) as [w Hw].
    split; [|done]. rewrite Hw. do 2 f_equal.
    apply (MarshalPropertyValue_wire_form (NewAssetProperty a) opts w true Hw).
  - intros a. destruct (MarshalArchive_known a opts) as [w Hw].
    split; [|done]. rewrite Hw. do 2 f_equal.
    apply (MarshalPropertyValue_wire_form (NewArchiveProperty a) opts w true Hw).
  - intros v Hv. destruct (MarshalPropertyValue_unexposed_total v opts Hv)
      as [w Hw].
    rewrite Hw. do 2 f_equal. by apply MarshalPropertyValue_wire_form in Hw.
Qed.

End rpc.

Arguments NewNullProperty {Asset Archive}.
Arguments NewBoolProperty {Asset Archive} v.
Arguments NewNumberProperty {Asset Archive} v.
Arguments NewStringProperty {Asset Archive} v.
Arguments NewArrayProperty {Asset Archive} v.
Arguments NewAssetProperty {Asset Archive} v.
Arguments NewArchiveProperty {Asset Archive} v.
Arguments NewObjectProperty {Asset Archive} v.
Arguments NewComputedProperty {Asset Archive} Element.
Arguments NewOutputProperty {Asset Archive} Element.
Arguments IsNull {Asset Archive} v.
Arguments IsComputed {Asset Archive} v.
Arguments IsOutput {Asset Archive} v.
Arguments fully_known {Asset Archive} v.
Arguments only_plain {Asset Archive} v.
Arguments skipped {Asset Archive} opts v.
Arguments NewPropertyValue {Asset Archive} p.
Arguments NewPropertyMapFromMap {Asset Archive} m.
Arguments MarshalPropertyValue {Asset Archive} Asset_Serialize Archive_Serialize v opts.
Arguments MarshalPropertiesWithUnknowns {Asset Archive} Asset_Serialize Archive_Serialize props opts.
Arguments MarshalProperties {Asset Archive} Asset_Serialize Archive_Serialize props opts.
Arguments MarshalAsset {Asset Archive} Asset_Serialize v opts.
Arguments MarshalArchive {Asset Archive} Archive_Serialize v opts.
Arguments UnmarshalPropertyValue {Asset Archive} DeserializeAsset DeserializeArchive v opts.
Arguments UnmarshalProperties {Asset Archive} DeserializeAsset DeserializeArchive props opts.
Arguments exposed {Asset Archive} v.
Arguments without_nulls {Asset Archive} v.
Arguments wire_form {Asset Archive} Asset_Serialize Archive_Serialize opts v.
Arguments wire_fields {Asset Archive} Asset_Serialize Archive_Serialize opts props.

(** ** Package [compiler]: the Mufile parser *)

Module compiler.

(** [glog.Fatalf] logs and then ends the process; every other path of
    [Parse] returns to its caller. *)
Inductive outcome (A : Type) : Type :=
| Returns (a : A)
| Exits.
Arguments Returns {A} a.
Arguments Exits {A}.

Section parser.

(** [ast.Stack] and Go's [error] are opaque to the parser. *)
Variables (Stack error : Type).

(** The zero value that [var stack ast.Stack] declares. *)
Variable zero_Stack : Stack.

(** Modelled from the spec: a [diag.Document], the source document a
    diagnostic refers to, with its file name and its raw bytes (packages
    [diag], [encoding] and [errors] are not part of the sources at hand);
    [Ext] is the format extension of the document. *)
Record Document : Type := {
  File : string;
  Body : list Byte.byte;
}.

Variable Ext : Document → string.

(** An [encoding.Marshaler] deserializes a body into the stack it is given,
    and answers with the stack as it leaves it and with the error, if any. *)
Record Marshaler : Type := {
  Unmarshal : list Byte.byte → Stack → Stack * option error;
}.

(** [encoding.Marshalers], the marshalers registered by extension. *)
Variable Marshalers : gmap string Marshaler.

(** Modelled from the spec: a diagnostic, with the document it is about, and
    the sink, which records the errors reported to it. *)
Record Diag : Type := {
  Message : string;
  Doc : option Document;
}.

Definition WithDocument (d : Diag) (doc : Document) : Diag :=
  {| Message := Message d; Doc := Some doc |}.

(** [errors.IllegalMufileSyntax]. *)
Variable IllegalMufileSyntax : Diag.

Definition Sink : Type := list (Diag * error).

Definition Errorf (sink : Sink) (d : Diag) (err : error) : Sink :=
  sink ++ [(d, err)].

Definition Errors (sink : Sink) : nat := length sink.

(** [parser.Parse] detects and parses input from the given document.  If an
    error occurs, the return value is nil ([None]); the sink is threaded
    through. *)
Definition Parse (doc : Document) (sink : Sink) :
    outcome (option Stack) * Sink :=
  let stack := zero_Stack in
  match Marshalers !! Ext doc with
  | None =>
      (* glog.Fatalf("No marshaler registered for this Mufile extension") *)
      (Exits, sink)
  | Some marshaler =>
      let '(stack, err) := Unmarshal marshaler (Body doc) stack in
      match err with
      | Some err =>
          (Returns None,
           Errorf sink (WithDocument IllegalMufileSyntax doc) err)
      | None => (Returns (Some stack), sink)
      end
  end.

(** C9.  When a marshaler is registered for the format of the document and
    it fails to deserialize the body, [Parse] returns nil to its caller (the
    process goes on) and has reported one error, the illegal-syntax
    diagnostic about this document with the marshaler's error, to the
    sink. *)
Theorem Parse_syntax_error (doc : Document) (sink : Sink)
    (marshaler : Marshaler) (stack : Stack) (err : error) :
  Marshalers !! Ext doc = Some marshaler →
  Unmarshal marshaler (Body doc) zero_Stack = (stack, Some err) →
  Parse doc sink =
    (Returns None, sink ++ [(WithDocument IllegalMufileSyntax doc, err)]) ∧
  Doc (WithDocument IllegalMufileSyntax doc) = Some doc ∧
  Errors (Parse doc sink).2 = S (Errors sink).
Proof.
  intros Hm Hu. unfold Parse. rewrite Hm, Hu. simpl.
  split_and!; [done | done |].
  unfold Errors, Errorf. rewrite length_app. simpl. lia.
Qed.

(** X14.  [Parse] ends the process, by [glog.Fatalf], exactly when no
    marshaler is registered for the extension of the document, and then
    reports nothing; it returns a stack exactly when the registered
    marshaler deserializes the body without error, the stack being the one
    the marshaler filled, and then leaves the sink as it was. *)
Theorem Parse_outcomes (doc : Document) (sink : Sink) :
  ((Parse doc sink).1 = Exits ↔ Marshalers !! Ext doc = None) ∧
  ((Parse doc sink).1 = Exits → (Parse doc sink).2 = sink) ∧
  (∀ stack, (Parse doc sink).1 = Returns (Some stack) ↔
            ∃ marshaler, Marshalers !! Ext doc = Some marshaler ∧
                         Unmarshal marshaler (Body doc) zero_Stack =
                         (stack, None)) ∧
  (∀ stack, (Parse doc sink).1 = Returns (Some stack) →
            (Parse doc sink).2 = sink).
Proof.
  unfold Parse. destruct (Marshalers !! Ext doc) as [marshaler|]; simpl.
  - destruct (Unmarshal marshaler (Body doc) zero_Stack) as [stack' [err|]]
      eqn:Hu; simpl; split_and!; try done.
    + intros stack. split; [done|]. intros (m & [= <-] & H).
      rewrite Hu in H. done.
    + intros stack. split.
      * intros [= <-]. by exists marshaler.
      * intros (m & [= <-] & H). rewrite Hu in H. by injection H as ->.
  - split_and!; try done.
    intros stack. split; [done | by intros (m & ? & _)].
Qed.

End parser.

(** A sample instance: stacks are names, errors are messages, and one
    marshaler is registered, for [".json"], which rejects the empty body. *)
Definition json : Marshaler string string :=
  {| Unmarshal body stack :=
       match body with
       | [] => (stack, Some "unexpected end of JSON input")
       | _ => ("stack", None)
       end |}.

Definition sample_Marshalers : gmap string (Marshaler string string) :=
  {[ ".json" := json ]}.

Definition sample_doc : Document := {| File := "Mu.json"; Body := [] |}.

Definition sample_diag : Diag :=
  {| Message := "A syntax error was detected while parsing the Mufile";
     Doc := None |}.

Lemma Parse_syntax_error_witness :
  sample_Marshalers !! ".json" = Some json ∧
  Unmarshal string string json (Body sample_doc) "" =
    ("", Some "unexpected end of JSON input") ∧
  Parse string string "" (λ _, ".json") sample_Marshalers sample_diag
        sample_doc [] =
    (Returns None,
     [(WithDocument sample_diag sample_doc, "unexpected end of JSON input")]).
Proof.
  split; [reflexivity|]. split; [reflexivity|].
  apply (Parse_syntax_error string string "" (λ _, ".json") sample_Marshalers
           sample_diag sample_doc [] json "" "unexpected end of JSON input");
    reflexivity.
Defined.

Definition yaml_doc : Document := {| File := "Mu.yaml"; Body := [] |}.

Lemma Parse_outcomes_witness :
  sample_Marshalers !! ".yaml" = None ∧
  Parse string string "" (λ _, ".yaml") sample_Marshalers sample_diag
        yaml_doc [] = (Exits, []).
Proof.
  split; [reflexivity|].
  pose proof (Parse_outcomes string string "" (λ _, ".yaml") sample_Marshalers
                sample_diag yaml_doc []) as (Hexit & Hsink & _).
  destruct (Parse string string "" (λ _, ".yaml") sample_Marshalers
              sample_diag yaml_doc []) as [out sink'] eqn:HP.
  simpl in Hexit, Hsink.
  rewrite (proj2 Hexit eq_refl) in Hsink |- *. by rewrite (Hsink eq_refl).
Defined.

End compiler.

(** ** A codec instance, for examples *)

Module sample.

(** Modelled from the spec: the codec of assets and archives of package
    [resource] ([Serialize], [DeserializeAsset], [DeserializeArchive]), which
    is not among the sources, in the shape that section 4.6 describes, a
    reserved discriminator field per kind plus one payload field: an asset
    carries its inline text, an archive a location. *)
Definition Asset : Type := string.
Definition Archive : Type := string.

Abbreviation PV := (PropertyValue Asset Archive).

Definition Asset_Serialize (a : Asset) : gmap string plain :=
  {[ "asset" := plain_bool true; "text" := plain_string a ]}.

Definition Archive_Serialize (a : Archive) : gmap string plain :=
  {[ "archive" := plain_bool true; "path" := plain_string a ]}.

Definition DeserializeAsset (obj : gmap string PV) : option Asset :=
  match obj !! "asset", obj !! "text" with
  | Some (NewBoolProperty true), Some (NewStringProperty s) => Some s
  | _, _ => None
  end.

Definition DeserializeArchive (obj : gmap string PV) : option Archive :=
  match obj !! "archive", obj !! "path" with
  | Some (NewBoolProperty true), Some (NewStringProperty s) => Some s
  | _, _ => None
  end.

End sample.

(** ** Sniffing of assets and archives *)

(** C6 (struct sniffing).  For any pair of recognizers, unmarshaling a wire
    struct first decodes its fields ([UnmarshalProperties]; an abort there
    is the abort of the whole) and then runs the asset recognizer and, when
    that one does not match, the archive recognizer over the decoded map:
    the first match wins and is returned as the asset or archive
    recognized, and a map that neither accepts is wrapped as an object.
    With the codec [sample], the map that the wire form of an asset decodes
    to is accepted by the asset recognizer and not by the archive
    recognizer, and the asset comes back; likewise the map of an archive is
    accepted by the archive recognizer only, and the archive comes back. *)
Theorem struct_sniffing :
  (∀ (Asset Archive : Type)
     (DeserializeAsset : gmap string (PropertyValue Asset Archive) →
                         option Asset)
     (DeserializeArchive : gmap string (PropertyValue Asset Archive) →
                           option Archive)
     (s : option Struct) (opts : MarshalOptions),
     (∀ p, UnmarshalProperties DeserializeAsset DeserializeArchive s opts =
             Panic p →
           UnmarshalPropertyValue DeserializeAsset DeserializeArchive
             (Value_StructValue s) opts = Panic p) ∧
     (∀ obj, UnmarshalProperties DeserializeAsset DeserializeArchive s opts =
               Ok obj →
        (∀ asset, DeserializeAsset obj = Some asset →
           UnmarshalPropertyValue DeserializeAsset DeserializeArchive
             (Value_StructValue s) opts = Ok (NewAssetProperty asset)) ∧
        (∀ archive, DeserializeAsset obj = None →
           DeserializeArchive obj = Some archive →
           UnmarshalPropertyValue DeserializeAsset DeserializeArchive
             (Value_StructValue s) opts = Ok (NewArchiveProperty archive)) ∧
        (DeserializeAsset obj = None → DeserializeArchive obj = None →
           UnmarshalPropertyValue DeserializeAsset DeserializeArchive
             (Value_StructValue s) opts = Ok (NewObjectProperty obj)))) ∧
  (∀ (a : sample.Asset) (opts : MarshalOptions),
     let obj : gmap string sample.PV :=
       NewPropertyMapFromMap (sample.Asset_Serialize a) in
     ∃ s : Struct,
       MarshalPropertyValue sample.Asset_Serialize sample.Archive_Serialize
         (NewAssetProperty a) opts = Ok (Value_StructValue (Some s), true) ∧
       UnmarshalProperties sample.DeserializeAsset sample.DeserializeArchive
         (Some s) opts = Ok obj ∧
       sample.DeserializeAsset obj = Some a ∧
       sample.DeserializeArchive obj = None ∧
       UnmarshalPropertyValue sample.DeserializeAsset
         sample.DeserializeArchive (Value_StructValue (Some s)) opts =
       Ok (NewAssetProperty a)) ∧
  (∀ (r : sample.Archive) (opts : MarshalOptions),
     let obj : gmap string sample.PV :=
       NewPropertyMapFromMap (sample.Archive_Serialize r) in
     ∃ s : Struct,
       MarshalPropertyValue sample.Asset_Serialize sample.Archive_Serialize
         (NewArchiveProperty r) opts = Ok (Value_StructValue (Some s), true) ∧
       UnmarshalProperties sample.DeserializeAsset sample.DeserializeArchive
         (Some s) opts = Ok obj ∧
       sample.DeserializeAsset obj = None ∧
       sample.DeserializeArchive obj = Some r ∧
       UnmarshalPropertyValue sample.DeserializeAsset
         sample.DeserializeArchive (Value_StructValue (Some s)) opts =
       Ok (NewArchiveProperty r)).
Proof.
  split_and!.
  - intros Asset Archive DeserializeAsset DeserializeArchive s opts.
    apply UnmarshalPropertyValue_sniff.
  - intros a [[|] olds raw]; simpl;
      (exists {[ "asset" := Value_BoolValue true;
                 "text" := Value_StringValue a ]});
      split_and!; vm_compute; reflexivity.
  - intros r [[|] olds raw]; simpl;
      (exists {[ "archive" := Value_BoolValue true;
                 "path" := Value_StringValue r ]});
      split_and!; vm_compute; reflexivity.
Qed.

(** ** The properties at concrete inputs *)

Module examples.
Import sample.

Abbreviation marshal := (MarshalPropertyValue Asset_Serialize Archive_Serialize).
Abbreviation marshal_map :=
  (MarshalPropertiesWithUnknowns Asset_Serialize Archive_Serialize).
Abbreviation marshal_strict :=
  (MarshalProperties Asset_Serialize Archive_Serialize).
Abbreviation unmarshal :=
  (UnmarshalPropertyValue DeserializeAsset DeserializeArchive).
Abbreviation unmarshal_map :=
  (UnmarshalProperties DeserializeAsset DeserializeArchive).

(** An object with a null, and an array of a string and a bool. *)
Definition nested : PV :=
  NewObjectProperty
    {[ "a" := NewNullProperty;
       "b" := NewArrayProperty [NewStringProperty "x"; NewBoolProperty true] ]}.

Lemma round_trip_witness :
  SkipNulls default_options = false ∧
  only_plain nested = true ∧
  not_sniffed Asset Archive DeserializeAsset DeserializeArchive nested = true ∧
  ∃ w, marshal nested default_options = Ok (w, true) ∧
       unmarshal w default_options = Ok nested.
Proof.
  split; [reflexivity|]. split; [reflexivity|]. split; [reflexivity|].
  apply (round_trip Asset Archive Asset_Serialize Archive_Serialize
           DeserializeAsset DeserializeArchive nested default_options);
    reflexivity.
Defined.

(** The object that an asset serializes to is built from a bool and a
    string only, and comes back from the wire as the asset. *)
Definition asset_shaped : PV :=
  NewObjectProperty (NewPropertyMapFromMap (Asset_Serialize "hello")).

Lemma round_trip_counterexample :
  only_plain asset_shaped = true ∧
  ∃ w, marshal asset_shaped default_options = Ok (w, true) ∧
       unmarshal w default_options = Ok (NewAssetProperty "hello") ∧
       unmarshal w default_options ≠ Ok asset_shaped.
Proof.
  split; [reflexivity|].
  eexists. split; [vm_compute; reflexivity|].
  split; [vm_compute; reflexivity|]. vm_compute. discriminate.
Qed.

Definition one_output : gmap string PV :=
  {[ "k" := NewOutputProperty NewNullProperty ]}.

Lemma strict_marshal_counterexample :
  one_output !! "k" = Some (NewOutputProperty NewNullProperty) ∧
  marshal_strict one_output default_options = Ok ∅.
Proof. split; reflexivity. Qed.

Definition one_computed : gmap string PV :=
  {[ "k" := NewComputedProperty (NewStringProperty "") ]}.

Lemma strict_marshal_aborts_witness :
  exposed_in Asset Archive one_computed ∧
  is_Panic (marshal_strict one_computed default_options).
Proof.
  assert (exposed_in Asset Archive one_computed) as H.
  { exists "k", (NewComputedProperty (NewStringProperty "")).
    split; [reflexivity|]. split; reflexivity. }
  split; [exact H|].
  exact (strict_marshal_aborts Asset Archive Asset_Serialize Archive_Serialize
           DeserializeAsset DeserializeArchive one_computed default_options H).
Defined.

Lemma unknown_propagation_witness :
  one_computed !! "k" = Some (NewComputedProperty (NewStringProperty "")) ∧
  exposed (NewStringProperty "" : PV) = false ∧
  marshal (NewStringProperty "") default_options =
    Ok (Value_StringValue "", true) ∧
  wire_fields Asset_Serialize Archive_Serialize default_options one_computed
    !! "k" = Some (Value_StringValue "") ∧
  marshal_map one_computed default_options =
    Ok ({[ "k" := Value_StringValue "" ]}, Some {[ "k" ]}).
Proof.
  split; [reflexivity|]. split; [reflexivity|].
  destruct (proj1 (proj1 (unknown_propagation Asset Archive Asset_Serialize
                            Archive_Serialize DeserializeAsset
                            DeserializeArchive one_computed default_options)
                     "k" (NewStringProperty "") eq_refl) eq_refl)
    as (He & Hk & Hmap).
  split; [exact He|]. split; [exact Hk|].
  rewrite Hmap; [vm_compute; reflexivity|].
  intros k' v Hne Hv. exfalso.
  unfold one_computed in Hv. by rewrite lookup_singleton_ne in Hv.
Defined.

(** A computed value over an output value: the element is not computed,
    yet marshaling the map aborts at the assertion that it is known
    (rpc.go:109). *)
Definition computed_output : gmap string PV :=
  {[ "k" := NewComputedProperty (NewOutputProperty NewNullProperty) ]}.

Lemma unknown_propagation_counterexample :
  computed_output !! "k" =
    Some (NewComputedProperty (NewOutputProperty NewNullProperty)) ∧
  IsComputed (NewOutputProperty NewNullProperty : PV) = false ∧
  marshal_map computed_output default_options = Panic ElementNotKnown.
Proof. split; [reflexivity|]. split; reflexivity. Qed.

Definition with_output : gmap string PV :=
  {[ "k" := NewOutputProperty (NewComputedProperty NewNullProperty);
     "j" := NewStringProperty "x" ]}.

Lemma output_suppression_witness :
  with_output !! "k" =
    Some (NewOutputProperty (NewComputedProperty NewNullProperty)) ∧
  match marshal_map with_output default_options with
  | Ok (s, unk) => s !! "k" = None ∧ "k" ∉ unk_keys unk
  | Panic p =>
      ∃ k' v, k' ≠ "k" ∧ with_output !! k' = Some v ∧
              skipped default_options v = false ∧
              marshal v default_options = Panic p
  end.
Proof.
  split; [reflexivity|].
  apply (output_suppression Asset Archive Asset_Serialize Archive_Serialize
           DeserializeAsset DeserializeArchive with_output default_options "k"
           (NewComputedProperty NewNullProperty)).
  reflexivity.
Defined.

(** The element of the computed value is an output: it is not computed, and
    yet the assertion on its known flag aborts the marshaling. *)
Lemma placeholder_counterexample :
  IsComputed (NewOutputProperty NewNullProperty : PV) = false ∧
  marshal (NewComputedProperty (NewOutputProperty NewNullProperty))
          default_options = Panic ElementNotKnown.
Proof. split; reflexivity. Qed.

(** The wire struct of the archive at the location p. *)
Definition archive_shaped : Struct :=
  {[ "archive" := Value_BoolValue true; "path" := Value_StringValue "p" ]}.

Lemma struct_sniffing_witness :
  ∃ obj, unmarshal_map (Some archive_shaped) default_options = Ok obj ∧
         DeserializeAsset obj = None ∧
         DeserializeArchive obj = Some "p" ∧
         unmarshal (Value_StructValue (Some archive_shaped)) default_options =
         Ok (NewArchiveProperty "p").
Proof.
  eexists. split; [vm_compute; reflexivity|].
  split; [vm_compute; reflexivity|]. split; [vm_compute; reflexivity|].
  apply (proj1 (proj2 (proj2 (proj1 struct_sniffing Asset Archive
                  DeserializeAsset DeserializeArchive (Some archive_shaped)
                  default_options) _ eq_refl)));
    vm_compute; reflexivity.
Defined.

Definition reply : Value :=
  Value_ListValue
    [Value_NullValue; Value_NumberValue 1.5;
     Value_StructValue (Some {[ "n" := Value_StringValue "x" ]})].

Lemma unmarshal_never_computed_witness :
  Value_closed reply = true ∧
  (∃ pv, unmarshal reply default_options = Ok pv ∧ IsComputed pv = false) ∧
  (∀ props, unmarshal_map props default_options ≠ Panic DecodedComputed).
Proof.
  split; [reflexivity|].
  apply (unmarshal_never_computed Asset Archive DeserializeAsset
           DeserializeArchive reply default_options).
  reflexivity.
Defined.

Lemma decoded_without_unknowns_witness :
  ∃ pv, unmarshal reply default_options = Ok pv ∧
        IsOutput pv = false ∧ IsComputed pv = false ∧ fully_known pv = true.
Proof.
  eexists. split; [vm_compute; reflexivity|].
  apply (proj1 (decoded_without_unknowns Asset Archive DeserializeAsset
                  DeserializeArchive default_options) reply).
  vm_compute; reflexivity.
Defined.

End examples.

(** ** The further properties at concrete inputs *)

Module more_examples.
Import sample examples.

Abbreviation on_sample t :=
  (t Asset Archive Asset_Serialize Archive_Serialize
     DeserializeAsset DeserializeArchive) (only parsing).

Definition skip_options : MarshalOptions :=
  {| SkipNulls := true; OldURNs := false; RawResources := false |}.

Definition other_options : MarshalOptions :=
  {| SkipNulls := false; OldURNs := true; RawResources := true |}.

Definition twice_computed : PV :=
  NewArrayProperty [NewComputedProperty (NewComputedProperty NewNullProperty)].

Lemma marshal_abort_sites_witness :
  marshal twice_computed default_options = Panic ElementIsComputed ∧
  (ElementIsComputed = ElementIsComputed ∨ ElementIsComputed = ElementNotKnown).
Proof.
  split; [reflexivity|].
  apply (proj1 (on_sample marshal_abort_sites default_options) twice_computed).
  reflexivity.
Defined.

Lemma unmarshal_succeeds_iff_closed_witness :
  Value_closed reply = true ∧ is_Ok (unmarshal reply default_options).
Proof.
  split; [reflexivity|].
  apply (proj2 (proj1 (unmarshal_succeeds_iff_closed Asset Archive
                         DeserializeAsset DeserializeArchive reply
                         default_options))).
  reflexivity.
Defined.

Lemma only_SkipNulls_matters_witness :
  SkipNulls default_options = SkipNulls other_options ∧
  marshal nested default_options = marshal nested other_options.
Proof.
  split; [reflexivity|].
  apply (proj1 (on_sample only_SkipNulls_matters default_options other_options
                  eq_refl)).
Defined.

Lemma marshaled_value_decodes_witness :
  ∃ w, marshal nested default_options = Ok (w, true) ∧
       Value_closed w = true ∧ is_Ok (unmarshal w skip_options).
Proof.
  eexists. split; [vm_compute; reflexivity|].
  apply (on_sample marshaled_value_decodes nested default_options skip_options
           _ true).
  vm_compute; reflexivity.
Defined.

Definition partly_known : PV :=
  NewArrayProperty
    [NewStringProperty "x"; NewComputedProperty (NewStringProperty "")].

Lemma known_flag_meaning_witness :
  ∃ w known, marshal partly_known default_options = Ok (w, known) ∧
             known = negb (exposed partly_known).
Proof.
  eexists. eexists. split; [vm_compute; reflexivity|].
  apply (on_sample known_flag_meaning partly_known default_options
           (Value_ListValue [Value_StringValue "x"; Value_StringValue ""])).
  vm_compute; reflexivity.
Defined.

Definition mixed : gmap string PV :=
  {[ "k" := NewComputedProperty (NewStringProperty "");
     "j" := NewStringProperty "x";
     "o" := NewOutputProperty NewNullProperty ]}.

Lemma unknown_keys_invariant_witness :
  ∃ s unk, marshal_map mixed default_options = Ok (s, unk) ∧
           unk ≠ Some ∅ ∧ (∀ k, k ∈ unk_keys unk → is_Some (s !! k)).
Proof.
  eexists. eexists. split; [vm_compute; reflexivity|].
  refine (let H := on_sample unknown_keys_invariant mixed default_options
                     _ _ _ in conj (proj1 H) (proj1 (proj2 H))).
  vm_compute; reflexivity.
Defined.

Lemma arrays_by_position_witness :
  ∃ pvs, Forall2 (λ x e, unmarshal x default_options = Ok e)
                 [Value_NullValue; Value_BoolValue true] pvs ∧
         NewArrayProperty [NewNullProperty; NewBoolProperty true] =
         NewArrayProperty pvs.
Proof.
  apply (proj2 (on_sample arrays_by_position default_options)
           [Value_NullValue; Value_BoolValue true]).
  reflexivity.
Defined.

(** A map that has the shape of a serialized asset is not sniffed itself. *)
Definition asset_like : gmap string PV :=
  {[ "asset" := NewBoolProperty true; "text" := NewStringProperty "hello" ]}.

Lemma properties_there_and_back_witness :
  SkipNulls default_options = false ∧
  map_Forall (λ _ x, only_plain x = true ∧
                     not_sniffed Asset Archive DeserializeAsset
                                 DeserializeArchive x = true) asset_like ∧
  ∃ s, marshal_strict asset_like default_options = Ok s ∧
       unmarshal_map (Some s) default_options = Ok asset_like.
Proof.
  assert (map_Forall (λ _ x, only_plain x = true ∧
                             not_sniffed Asset Archive DeserializeAsset
                                         DeserializeArchive x = true)
                     asset_like) as H.
  { intros k x Hx. unfold asset_like in Hx.
    apply lookup_insert_Some in Hx as [[_ <-]|[_ Hx]]; [by split|].
    apply lookup_singleton_Some in Hx as [_ <-]. by split. }
  split; [reflexivity|]. split; [exact H|].
  exact (on_sample properties_there_and_back asset_like default_options eq_refl H).
Defined.

Lemma asset_archive_fidelity_witness :
  SkipNulls default_options = false ∧
  DeserializeAsset (NewPropertyMapFromMap (Asset_Serialize "hello")) =
    Some "hello" ∧
  ∃ w, marshal (NewAssetProperty "hello") default_options = Ok (w, true) ∧
       unmarshal w default_options = Ok (NewAssetProperty "hello").
Proof.
  split; [reflexivity|]. split; [reflexivity|].
  apply (proj1 (on_sample asset_archive_fidelity default_options eq_refl)
           "hello"); [|reflexivity].
  intros k x Hx. unfold NewPropertyMapFromMap, Asset_Serialize in Hx.
  rewrite lookup_fmap in Hx.
  destruct (_ !! k) as [p|] eqn:Hp; [|done]. simpl in Hx. injection Hx as <-.
  apply lookup_insert_Some in Hp as [[_ <-]|[_ Hp]]; [done|].
  by apply lookup_singleton_Some in Hp as [_ <-].
Defined.

Definition with_null : Struct :=
  {[ "a" := Value_NullValue; "b" := Value_StringValue "x" ]}.

Lemma decoded_entries_witness :
  unmarshal_map (Some with_null) skip_options =
    Ok {[ "b" := NewStringProperty "x" ]} ∧
  ∀ k w, with_null !! k = Some w → is_Ok (unmarshal w skip_options).
Proof.
  split; [vm_compute; reflexivity|].
  apply (proj1 (proj2 (decoded_entries Asset Archive DeserializeAsset
                         DeserializeArchive skip_options)
                 (Some with_null) {[ "b" := NewStringProperty "x" ]} eq_refl)).
Defined.

Definition broken : Struct :=
  {[ "b" := Value_nil; "a" := Value_Kind_nil; "c" := Value_nil ]}.

Lemma abort_of_least_key_witness :
  unmarshal_map (Some broken) default_options = Panic UnrecognizedKind ∧
  ∃ k w, broken !! k = Some w ∧
         unmarshal w default_options = Panic UnrecognizedKind ∧
         ∀ k' w', broken !! k' = Some w' → string_le k' k → k' ≠ k →
                  is_Ok (unmarshal w' default_options).
Proof.
  split; [vm_compute; reflexivity|].
  apply (proj1 (on_sample abort_of_least_key default_options) broken).
  vm_compute; reflexivity.
Defined.

Definition hidden_unknown : PV :=
  NewObjectProperty
    {[ "o" := NewOutputProperty (NewComputedProperty NewNullProperty);
       "n" := NewNumberProperty 1.5 ]}.

Lemma strict_marshal_succeeds_iff_witness :
  exposed hidden_unknown = false ∧
  ∃ w, marshal hidden_unknown default_options = Ok (w, true).
Proof.
  split; [reflexivity|].
  apply (proj1 (on_sample strict_marshal_succeeds_iff default_options)
           hidden_unknown).
  reflexivity.
Defined.

Definition with_nulls : PV :=
  NewObjectProperty
    {[ "a" := NewNullProperty;
       "b" := NewArrayProperty [NewNullProperty; NewStringProperty "x"];
       "c" := NewObjectProperty {[ "d" := NewNullProperty ]} ]}.

Lemma skip_nulls_there_and_back_witness :
  SkipNulls skip_options = true ∧
  only_plain with_nulls = true ∧
  not_sniffed Asset Archive DeserializeAsset DeserializeArchive
              (without_nulls with_nulls) = true ∧
  ∃ w, marshal with_nulls skip_options = Ok (w, true) ∧
       unmarshal w skip_options = Ok (without_nulls with_nulls).
Proof.
  split; [reflexivity|]. split; [reflexivity|]. split; [reflexivity|].
  apply (on_sample skip_nulls_there_and_back with_nulls skip_options);
    reflexivity.
Defined.

Example without_nulls_example :
  without_nulls with_nulls =
  NewObjectProperty
    {[ "b" := NewArrayProperty [NewNullProperty; NewStringProperty "x"];
       "c" := NewObjectProperty ∅ ]}.
Proof. reflexivity. Qed.

End more_examples.
